(** * TECTO: key store, entropy gate and token engine

    A shallow embedding of [src/security.ts], [src/keystore.ts] and
    [src/core.ts], and the properties of the protocol proved over it.

    Conventions of the embedding.
    - A [Uint8Array] is a [list byte]; reading an element gives a number,
      [Byte.to_N].  Inside the key store a [Uint8Array] is an object with
      identity: the store's map holds references into a heap of buffers,
      so that [key.fill(0)] is visible through every alias.
    - A JavaScript string is a [string], one character per code unit
      (code units below 256).
    - A JavaScript number is an integer of [Z]: every number the engine
      computes (iat, exp, nbf, durations) is an integer, and the model is
      exact as long as those stay safe integers (below 2^53); the theorems
      that speak of a computed value assume [safe_integer] of it.
    - A [Date] is a time value in milliseconds or the invalid date;
      [new_Date] clips as [new Date(value)] does.
    - A [throw] is the [Throw] completion; [try { ... } catch { ... }] is a
      match on the completion.
    - [Date.now()] and [crypto.getRandomValues] read the [World].
    - The libraries the engine calls (XChaCha20-Poly1305 of @noble/ciphers,
      base64url of @scure/base, JSON, TextEncoder/TextDecoder) are the
      operations of the class [Externals]; what the proofs need of them is
      the class [ExternalsOk]. *)

From Stdlib Require Import ZArith NArith Lia Ascii String.
From Stdlib.Strings Require Import Byte.
From stdpp Require Import gmap strings list countable.

Local Open Scope string_scope.
Local Open Scope Z_scope.
Set Warnings "-clear-no-such-hyp".
Ltac Zify.zify_post_hook ::= Z.to_euclidean_division_equations.

(** ** Errors ([src/errors.ts]) *)

(** The messages of [KeyError].  The class carries a free-form message; the
    code builds exactly these. *)
Inductive KeyErrorMessage :=
| MustBeUint8Array
| WrongLength (received : nat)
| AllZeros
| RepeatingByte
| InsufficientEntropy (unique : nat)
| KeyNotFoundMsg (id : string)
| CannotRemoveCurrent
| NoKeysInStore.

(** A [Date] object: a time value in milliseconds, or the invalid date
    whose time value is [NaN].  [new Date(value)] clips: a value beyond
    8.64e15 milliseconds either side of the epoch gives the invalid date. *)
Inductive Date :=
| Date_at (milliseconds : Z)
| Invalid_Date.

Definition MAX_TIME : Z := 8640000000000000.

Definition new_Date (value : Z) : Date :=
  if Z.abs value <=? MAX_TIME then Date_at value else Invalid_Date.

(** Thrown values.  [TectoError] is only ever built directly with the code
    TECTO_INVALID_DURATION; [TypeError] is the runtime's exception for a
    property read on [null]; [LibraryError] is an [Error] thrown by a library
    of [Externals]. *)
Inductive exn :=
| TectoError_INVALID_DURATION (duration : string)
| TokenExpiredError (expiredAt : Date)
| InvalidSignatureError
| KeyError (message : KeyErrorMessage)
| TokenNotActiveError (activeAt : Date)
| TypeError
| LibraryError.

(** The error kinds the specification names, for the one [KeyError] class
    of the code. *)
Inductive KeyErrorKind := KeyInvalid | KeyNotFound | KeyInUse | KeyStoreEmpty.

Definition kind_of (m : KeyErrorMessage) : KeyErrorKind :=
  match m with
  | MustBeUint8Array | WrongLength _ | AllZeros | RepeatingByte
  | InsufficientEntropy _ => KeyInvalid
  | KeyNotFoundMsg _ => KeyNotFound
  | CannotRemoveCurrent => KeyInUse
  | NoKeysInStore => KeyStoreEmpty
  end.

(** ** Completions and the state-and-exception monad *)

Inductive completion (A : Type) :=
| Normal (a : A)
| Throw (e : exn).
Arguments Normal {A} a.
Arguments Throw {A} e.

Definition fails_with {A} (c : completion A) (k : KeyErrorKind) : Prop :=
  ∃ m, c = Throw (KeyError m) ∧ kind_of m = k.

#[global] Instance completion_ret : MRet completion := λ A a, Normal a.
#[global] Instance completion_bind : MBind completion := λ A B f c,
  match c with
  | Normal a => f a
  | Throw e => Throw e
  end.

(** A method running on a mutable state [S]: the state it leaves is
    returned whether it completes normally or throws. *)
Definition JS (S A : Type) : Type := S → completion A * S.

Definition js_ret {S A} (a : A) : JS S A := λ s, (Normal a, s).
Definition js_bind {S A B} (m : JS S A) (f : A → JS S B) : JS S B := λ s,
  match m s with
  | (Normal a, s') => f a s'
  | (Throw e, s') => (Throw e, s')
  end.
Definition js_throw {S A} (e : exn) : JS S A := λ s, (Throw e, s).
Definition js_get {S A} (f : S → A) : JS S A := λ s, (Normal (f s), s).
Definition js_modify {S} (f : S → S) : JS S unit := λ s, (Normal tt, f s).
Definition js_lift {S A} (c : completion A) : JS S A := λ s, (c, s).

Declare Scope js_scope.
Delimit Scope js_scope with js.
Notation "'let!' x ':=' m 'in' k" := (js_bind m (λ x, k))
  (at level 10, x pattern, m at level 100, k at level 200) : js_scope.
Notation "m ';;;' k" := (js_bind m (λ _, k))
  (at level 100, k at level 200, right associativity) : js_scope.

(** ** Uint8Array *)

(** [key[i] ?? 0] *)
Definition at_or_0 (key : list byte) (i : nat) : N :=
  default 0%N (Byte.to_N <$> key !! i).

(** [new Uint8Array(n)] and [key.fill(0)] *)
Definition zeros (n : nat) : list byte := replicate n x00.
Definition fill_0 (key : list byte) : list byte := zeros (length key).

(** ** Security primitives ([src/security.ts]) *)

Module Security.

Definition KEY_LENGTH : nat := 32.
Definition MIN_UNIQUE_BYTES : nat := 8.

(** [flag = true; for (i = from; ...; i++) if (!(p i)) { flag = false; break; }]
    run for [steps] iterations. *)
Fixpoint all_until_break (p : nat → bool) (from steps : nat) : bool :=
  match steps with
  | O => true
  | S k => if p from then all_until_break p (S from) k else false
  end.

Definition isAllZeros (key : list byte) : bool :=
  all_until_break (λ i, N.eqb (at_or_0 key i) 0) 0 (length key).

Definition isRepeating (key : list byte) : bool :=
  let firstByte := at_or_0 key 0 in
  all_until_break (λ i, N.eqb (at_or_0 key i) firstByte) 1 (length key - 1).

(** [for (i = 0; i < key.byteLength; i++) uniqueBytes.add(key[i] ?? 0)] *)
Definition uniqueBytes (key : list byte) : gset N :=
  foldl (λ (s : gset N) i, {[ at_or_0 key i ]} ∪ s) ∅ (seq 0 (length key)).

(** The parameter is typed [Uint8Array], so the [instanceof] guard of the
    first statement always passes here. *)
Definition assertEntropy (key : list byte) : completion unit :=
  if negb (Nat.eqb (length key) KEY_LENGTH)
  then Throw (KeyError (WrongLength (length key)))
  else if isAllZeros key then Throw (KeyError AllZeros)
  else if isRepeating key then Throw (KeyError RepeatingByte)
  else if Nat.ltb (size (uniqueBytes key)) MIN_UNIQUE_BYTES
  then Throw (KeyError (InsufficientEntropy (size (uniqueBytes key))))
  else Normal tt.

(** [diff |= (a[i] ?? 0) ^ (b[i] ?? 0)] over every index of [a]; the bytes
    are below 256, where the 32-bit operators of JavaScript are exact. *)
Definition accumulated_diff (a b : list byte) : N :=
  foldl (λ diff i, N.lor diff (N.lxor (at_or_0 a i) (at_or_0 b i)))
        0%N (seq 0 (length a)).

Definition constantTimeCompare (a b : list byte) : bool :=
  if negb (Nat.eqb (length a) (length b)) then false
  else N.eqb (accumulated_diff a b) 0.

End Security.

(** The number of distinct byte values of a key, counted on the list. *)
Definition distinct_values (key : list byte) : nat :=
  length (remove_dups (Byte.to_N <$> key)).

(** ** The in-memory key store ([src/keystore.ts]) *)

Module MemoryKeyStore.

(** [heap] holds the buffers the store has allocated, by identity; [keys] is
    the [Map<string, Uint8Array>] of references; [currentKeyId] is [None]
    for [null]. *)
Record t := mk {
  heap : gmap nat (list byte);
  keys : gmap string nat;
  currentKeyId : option string }.

Definition empty : t := mk ∅ ∅ None.

(** [new Uint8Array(n)]: a buffer of zeros at a reference not used before. *)
Definition new_Uint8Array (n : nat) : JS t nat := λ st,
  let r := fresh (dom (heap st)) in
  (Normal r, mk (<[r := zeros n]> (heap st)) (keys st) (currentKeyId st)).

(** [target.set(source)] with [source.length <= target.length]: the prefix
    of the target is overwritten. *)
Definition buffer_set (target : nat) (source : list byte) : JS t unit :=
  js_modify (λ st,
    mk (alter (λ old : list byte, (source ++ drop (length source) old)%list)
              target (heap st))
       (keys st) (currentKeyId st)).

(** [buffer.fill(0)] *)
Definition buffer_fill_0 (target : nat) : JS t unit :=
  js_modify (λ st, mk (alter fill_0 target (heap st)) (keys st) (currentKeyId st)).

Definition keys_set (id : string) (r : nat) : JS t unit :=
  js_modify (λ st, mk (heap st) (<[id := r]> (keys st)) (currentKeyId st)).

Definition keys_delete (id : string) : JS t unit :=
  js_modify (λ st, mk (heap st) (delete id (keys st)) (currentKeyId st)).

Definition set_currentKeyId (id : string) : JS t unit :=
  js_modify (λ st, mk (heap st) (keys st) (Some id)).

Local Open Scope js_scope.

Definition addKey (id : string) (secret : list byte) : JS t unit :=
  js_lift (Security.assertEntropy secret) ;;;
  let! cloned := new_Uint8Array (length secret) in
  buffer_set cloned secret ;;;
  keys_set id cloned ;;;
  let! cur := js_get currentKeyId in
  match cur with
  | None => set_currentKeyId id
  | Some _ => js_ret tt
  end.

Definition getKey (id : string) : JS t nat :=
  let! key := js_get (λ st, keys st !! id) in
  match key with
  | None => js_throw (KeyError (KeyNotFoundMsg id))
  | Some key => js_ret key
  end.

Definition rotate (newId : string) (newSecret : list byte) : JS t unit :=
  addKey newId newSecret ;;;
  set_currentKeyId newId.

Definition removeKey (id : string) : JS t unit :=
  let! key := js_get (λ st, keys st !! id) in
  match key with
  | None => js_throw (KeyError (KeyNotFoundMsg id))
  | Some key =>
      let! cur := js_get currentKeyId in
      if decide (cur = Some id)
      then js_throw (KeyError CannotRemoveCurrent)
      else buffer_fill_0 key ;;; keys_delete id
  end.

Definition getCurrentKeyId : JS t string :=
  let! cur := js_get currentKeyId in
  match cur with
  | None => js_throw (KeyError NoKeysInStore)
  | Some id => js_ret id
  end.

Definition size : JS t nat := js_get (λ st, stdpp.base.size (keys st)).

(** The bytes a reference holds, and the secret stored under an id: what a
    reader of [getKey(id)] sees. *)
Definition bytes_at (st : t) (r : nat) : option (list byte) := heap st !! r.

Definition secret_of (st : t) (id : string) : option (list byte) :=
  keys st !! id ≫= bytes_at st.

(** The calls a client can make, and the state each leaves. *)
Inductive call :=
| AddKey (id : string) (secret : list byte)
| Rotate (newId : string) (newSecret : list byte)
| RemoveKey (id : string)
| GetKey (id : string)
| GetCurrentKeyId
| Size.

Definition erase {A} (c : completion A) : completion unit :=
  match c with
  | Normal _ => Normal tt
  | Throw e => Throw e
  end.

Definition run (c : call) (st : t) : completion unit * t :=
  match c with
  | AddKey id secret => addKey id secret st
  | Rotate id secret => rotate id secret st
  | RemoveKey id => removeKey id st
  | GetKey id => (erase (fst (getKey id st)), snd (getKey id st))
  | GetCurrentKeyId => (erase (fst (getCurrentKeyId st)), snd (getCurrentKeyId st))
  | Size => (erase (fst (size st)), snd (size st))
  end.

Definition after (c : call) (st : t) : t := snd (run c st).

Inductive reachable : t → Prop :=
| reachable_empty : reachable empty
| reachable_call c st : reachable st → reachable (after c st).

(** The state [addKey] leaves when the gate lets the secret through. *)
Definition added (id : string) (secret : list byte) (st : t) : t :=
  let r := fresh (dom (heap st)) in
  mk (<[r := secret]> (heap st)) (<[id := r]> (keys st))
     (match currentKeyId st with None => Some id | Some cur => Some cur end).

Definition with_current (id : string) (st : t) : t :=
  mk (heap st) (keys st) (Some id).

(** The state [removeKey] leaves on success: the buffer wiped, then the
    entry deleted. *)
Definition wiped (r : nat) (st : t) : t :=
  mk (alter fill_0 r (heap st)) (keys st) (currentKeyId st).

Definition deleted (id : string) (st : t) : t :=
  mk (heap st) (delete id (keys st)) (currentKeyId st).

(** What every reachable state satisfies: the stored references are
    allocated, hold 32 bytes and are not shared between ids; the current id
    is stored; and a store with keys has a current id. *)
Record consistent (st : t) : Prop := {
  refs_allocated id r : keys st !! id = Some r →
    ∃ bytes, heap st !! r = Some bytes ∧ length bytes = 32%nat;
  refs_distinct id1 id2 r :
    keys st !! id1 = Some r → keys st !! id2 = Some r → id1 = id2;
  current_stored id : currentKeyId st = Some id → is_Some (keys st !! id);
  current_set : currentKeyId st = None → keys st = ∅ }.

(** The state after a sequence of calls, first call first. *)
Definition after_all (calls : list call) (st : t) : t :=
  foldl (λ st c, after c st) st calls.

(** Every stored secret is one the entropy gate let through. *)
Definition gated (st : t) : Prop :=
  ∀ id secret, secret_of st id = Some secret →
    Security.assertEntropy secret = Normal tt.

End MemoryKeyStore.

(** ** JSON values and payloads ([src/types.ts]) *)

(** What [JSON.parse] can return, and what a payload field can hold.  An
    object is a finite map: the engine never depends on property order. *)
#[warnings="-register-all"]
Inductive json :=
| JNull
| JBool (b : bool)
| JNumber (n : Z)
| JString (s : string)
| JArray (items : list json)
| JObject (fields : gmap string json).

(** [v[name]]: reading a property of [null] throws; a value without that
    property gives [undefined], here [None]. *)
Definition get_property (v : json) (name : string) : completion (option json) :=
  match v with
  | JNull => Throw TypeError
  | JObject fields => Normal (fields !! name)
  | _ => Normal None
  end.

(** Numbers.  The code computes with doubles, the model with integers: the
    two agree on a sum or a product of integers as long as the operands and
    the result are safe integers, and the theorems that speak of a computed
    value carry that bound. *)
Definition MAX_SAFE_INTEGER : Z := 9007199254740991.

Definition safe_integer (n : Z) : Prop :=
  - MAX_SAFE_INTEGER ≤ n ≤ MAX_SAFE_INTEGER.

(** [typeof x === "number"], returning the number. *)
Definition as_number (x : option json) : option Z :=
  match x with
  | Some (JNumber n) => Some n
  | _ => None
  end.

Record SignOptions := {
  expiresIn : option string;
  issuer : option string;
  audience : option string;
  jti : option string;
  notBefore : option string }.

(** [if (options?.field)]: set and not the empty string. *)
Definition truthy (field : option string) : option string :=
  match field with
  | Some "" => None
  | other => other
  end.

(** ** The environment: clock and random source *)

Record World := {
  Date_now : Z;
  random : nat → byte;
  drawn : nat }.

(** [crypto.getRandomValues(new Uint8Array(n))]: the next [n] bytes of the
    source. *)
Definition getRandomValues (n : nat) : JS World (list byte) := λ w,
  (Normal ((λ i, random w (drawn w + i)%nat) <$> seq 0 n),
   {| Date_now := Date_now w; random := random w; drawn := (drawn w + n)%nat |}).

(** [Math.floor(Date.now() / 1000)] *)
Definition now_seconds (w : World) : Z := Date_now w `div` 1000.

(** [generateSecureKey] of [src/security.ts]: a new buffer of [KEY_LENGTH]
    bytes filled from the random source. *)
Definition generateSecureKey : JS World (list byte) :=
  getRandomValues Security.KEY_LENGTH.

(** ** The libraries the engine calls *)

(** [None] stands for a call that throws. *)
Class Externals := {
  xchacha20poly1305_encrypt (key nonce plaintext : list byte) : option (list byte);
  xchacha20poly1305_decrypt (key nonce ciphertext : list byte) : option (list byte);
  base64url_encode : list byte → string;
  base64url_decode : string → option (list byte);
  JSON_stringify : json → string;
  JSON_parse : string → option json;
  TextEncoder_encode : string → list byte;
  TextDecoder_decode : list byte → string }.

Definition no_dot (s : string) : Prop := "."%char ∉ list_ascii_of_string s.

(** The contracts of those libraries that the round trip needs: the cipher
    seals under any 32-byte key and 24-byte nonce and opens what it sealed;
    base64url decodes what it encoded and its alphabet has no dot; JSON and
    UTF-8 read back what they wrote. *)
Class ExternalsOk (E : Externals) : Prop := {
  xchacha20poly1305_encrypt_some key nonce plaintext :
    length key = 32%nat → length nonce = 24%nat →
    is_Some (xchacha20poly1305_encrypt key nonce plaintext);
  xchacha20poly1305_decrypt_encrypt key nonce plaintext ciphertext :
    xchacha20poly1305_encrypt key nonce plaintext = Some ciphertext →
    xchacha20poly1305_decrypt key nonce ciphertext = Some plaintext;
  base64url_decode_encode bytes :
    base64url_decode (base64url_encode bytes) = Some bytes;
  base64url_encode_no_dot bytes : no_dot (base64url_encode bytes);
  JSON_parse_stringify v : JSON_parse (JSON_stringify v) = Some v;
  TextDecoder_decode_encode s : TextDecoder_decode (TextEncoder_encode s) = s }.

(** ** The token engine ([src/core.ts]) *)

Module TectoCoder.

Definition TECTO_PREFIX : string := "tecto".
Definition TECTO_VERSION : string := "v1".
Definition NONCE_LENGTH : nat := 24.
Definition SEGMENT_COUNT : nat := 5.

Definition code (c : ascii) : N := N_of_ascii c.

(** [\d] *)
Definition is_digit (c : ascii) : bool :=
  (48 <=? code c)%N && (code c <=? 57)%N.

(** [\s], on code units below 256: tab, line feed, vertical tab, form feed,
    carriage return, space, no-break space. *)
Definition is_space (c : ascii) : bool :=
  ((9 <=? code c)%N && (code c <=? 13)%N) || (code c =? 32)%N || (code c =? 160)%N.

(** [(s|m|h|d)] under the [i] flag, lower-cased, looked up in [multipliers]. *)
Definition multiplier (unit : ascii) : option Z :=
  match unit with
  | "s"%char | "S"%char => Some 1
  | "m"%char | "M"%char => Some 60
  | "h"%char | "H"%char => Some 3600
  | "d"%char | "D"%char => Some 86400
  | _ => None
  end.

Fixpoint span (p : ascii → bool) (s : string) : string * string :=
  match s with
  | String c rest =>
      if p c then let (taken, left) := span p rest in (String c taken, left)
      else ("", s)
  | EmptyString => ("", "")
  end.

(** [Number.parseInt(digits, 10)] on a string of digits: the integer the
    digits write.  The code gets this very number when it is a safe integer,
    and the double next to it otherwise. *)
Definition parseInt (digits : string) : Z :=
  fold_left (λ acc c, acc * 10 + (Z.of_N (code c) - 48))
            (list_ascii_of_string digits) 0.

(** [/^(\d+)\s*(s|m|h|d)$/i.exec(duration)].  The greedy groups never have to
    give a character back: what follows the digits is not a digit, and what
    follows the spaces is not a space. *)
Definition parseDuration (duration : string) : completion Z :=
  let (digits, rest) := span is_digit duration in
  let (_, rest) := span is_space rest in
  match digits, rest with
  | String _ _, String unit EmptyString =>
      match multiplier unit with
      | Some m => Normal (parseInt digits * m)
      | None => Throw (TectoError_INVALID_DURATION duration)
      end
  | _, _ => Throw (TectoError_INVALID_DURATION duration)
  end.

Definition hex_digit (n : N) : ascii :=
  default "0"%char (list_ascii_of_string "0123456789abcdef" !! N.to_nat n).

(** [b.toString(16).padStart(2, "0")] *)
Definition hex2 (b : byte) : string :=
  String (hex_digit (Byte.to_N b / 16)) (String (hex_digit (Byte.to_N b mod 16)) "").

Local Open Scope js_scope.

Definition generateJti : JS World string :=
  let! bytes := getRandomValues 16 in
  js_ret (String.concat "" (hex2 <$> bytes)).

(** [token.split(".")] *)
Fixpoint split (sep : ascii) (s : string) : list string :=
  match s with
  | EmptyString => [""]
  | String c rest =>
      if decide (c = sep) then "" :: split sep rest
      else match split sep rest with
           | first :: others => String c first :: others
           | [] => [String c ""]
           end
  end.

(** The bytes behind a key reference.  Every reference the store hands out
    is allocated, so the default is never taken. *)
Definition bytes_of (keyStore : MemoryKeyStore.t) (key : nat) : list byte :=
  default [] (MemoryKeyStore.bytes_at keyStore key).

Section Engine.
Context `{E : Externals}.

(** The claims of [encrypt] before serialisation: the payload spread first,
    then [iat] and [jti], then the optional registered claims. *)
Definition set_claim (name : string) (value : option json)
    (claims : gmap string json) : gmap string json :=
  match value with
  | Some v => <[name := v]> claims
  | None => claims
  end.

Definition encrypt (keyStore : MemoryKeyStore.t) (payload : gmap string json)
    (options : option SignOptions) : JS World string :=
  let! kid := js_lift (fst (MemoryKeyStore.getCurrentKeyId keyStore)) in
  let! key := js_lift (fst (MemoryKeyStore.getKey kid keyStore)) in
  let! now := js_get now_seconds in
  let! id := match options ≫= jti with
             | Some id => js_ret id
             | None => generateJti
             end in
  let claims := <["jti" := JString id]> (<["iat" := JNumber now]> payload) in
  let! exp := match truthy (options ≫= expiresIn) with
              | Some d => let! d := js_lift (parseDuration d) in
                          js_ret (Some (JNumber (now + d)))
              | None => js_ret None
              end in
  let claims := set_claim "exp" exp claims in
  let! nbf := match truthy (options ≫= notBefore) with
              | Some d => let! d := js_lift (parseDuration d) in
                          js_ret (Some (JNumber (now + d)))
              | None => js_ret None
              end in
  let claims := set_claim "nbf" nbf claims in
  let claims := set_claim "iss" (JString <$> truthy (options ≫= issuer)) claims in
  let claims := set_claim "aud" (JString <$> truthy (options ≫= audience)) claims in
  let plaintext := TextEncoder_encode (JSON_stringify (JObject claims)) in
  let! nonce := getRandomValues NONCE_LENGTH in
  match xchacha20poly1305_encrypt (bytes_of keyStore key) nonce plaintext with
  | None => js_throw LibraryError
  | Some ciphertext =>
      let nonceB64 := base64url_encode nonce in
      let ciphertextB64 := base64url_encode ciphertext in
      js_ret (TECTO_PREFIX ++ "." ++ TECTO_VERSION ++ "." ++ kid ++ "."
              ++ nonceB64 ++ "." ++ ciphertextB64)
  end.

(** [typeof exp === "number" && exp <= now] and
    [typeof nbf === "number" && nbf > now], returning the offending time. *)
Definition expired (now : Z) (exp : option json) : option Z :=
  match as_number exp with
  | Some exp => if exp <=? now then Some exp else None
  | None => None
  end.

Definition not_active (now : Z) (nbf : option json) : option Z :=
  match as_number nbf with
  | Some nbf => if nbf >? now then Some nbf else None
  | None => None
  end.

(** The time checks that end [decrypt].  The errors carry
    [new Date(payload.exp * 1000)] and [new Date(payload.nbf * 1000)]. *)
Definition check_time (now : Z) (payload : json) : completion json :=
  exp ← get_property payload "exp";
  match expired now exp with
  | Some exp => Throw (TokenExpiredError (new_Date (exp * 1000)))
  | None =>
      nbf ← get_property payload "nbf";
      match not_active now nbf with
      | Some nbf => Throw (TokenNotActiveError (new_Date (nbf * 1000)))
      | None => Normal payload
      end
  end.

Definition decrypt (keyStore : MemoryKeyStore.t) (w : World) (token : string)
    : completion json :=
  let segments := split "." token in
  if negb (Nat.eqb (length segments) SEGMENT_COUNT) then Throw InvalidSignatureError
  else
  match segments with
  | [prefix; version; kid; nonceB64; ciphertextB64] =>
      if negb (String.eqb prefix TECTO_PREFIX) || negb (String.eqb version TECTO_VERSION)
      then Throw InvalidSignatureError
      else
      match fst (MemoryKeyStore.getKey kid keyStore) with
      | Throw _ => Throw InvalidSignatureError
      | Normal key =>
          match base64url_decode nonceB64, base64url_decode ciphertextB64 with
          | Some nonce, Some ciphertext =>
              if negb (Nat.eqb (length nonce) NONCE_LENGTH)
              then Throw InvalidSignatureError
              else
              match xchacha20poly1305_decrypt (bytes_of keyStore key) nonce ciphertext with
              | None => Throw InvalidSignatureError
              | Some plaintext =>
                  match JSON_parse (TextDecoder_decode plaintext) with
                  | None => Throw InvalidSignatureError
                  | Some payload => check_time (now_seconds w) payload
                  end
              end
          | _, _ => Throw InvalidSignatureError
          end
      end
  | _ => Throw InvalidSignatureError
  end.

End Engine.
End TectoCoder.


(** ** Notions the properties are stated with *)

(** [rotate] as the specification words it: [addKey], then the new id made
    current. *)
Definition addKey_then_set_current (newId : string) (newSecret : list byte)
    (st : MemoryKeyStore.t) : completion unit * MemoryKeyStore.t :=
  match MemoryKeyStore.addKey newId newSecret st with
  | (Normal _, st') =>
      (Normal tt, MemoryKeyStore.mk (MemoryKeyStore.heap st')
                    (MemoryKeyStore.keys st') (Some newId))
  | (Throw e, st') => (Throw e, st')
  end.

(** The number of dots of a string. *)
Fixpoint dots (s : string) : nat :=
  match s with
  | EmptyString => 0
  | String c rest => if decide (c = "."%char) then S (dots rest) else dots rest
  end.

(** The wire format. *)
Definition frame (kid nonceB64 ciphertextB64 : string) : string :=
  "tecto.v1." ++ kid ++ "." ++ nonceB64 ++ "." ++ ciphertextB64.

(** The world after [n] more random bytes were read. *)
Definition advance (n : nat) (w : World) : World :=
  {| Date_now := Date_now w; random := random w; drawn := (drawn w + n)%nat |}.

(** What a call of [encrypt] in world [w] reads from the random source: 16
    bytes for the jti when the options give none, then the 24 bytes of the
    nonce. *)
Definition jti_bytes (options : option SignOptions) : nat :=
  match options ≫= jti with Some _ => 0%nat | None => 16%nat end.

Definition jti_of (options : option SignOptions) (w : World) : string :=
  match options ≫= jti with
  | Some id => id
  | None => String.concat "" (TectoCoder.hex2 <$> (random w <$> seq (drawn w) 16))
  end.

Definition nonce_of (options : option SignOptions) (w : World) : list byte :=
  random w <$> seq (drawn w + jti_bytes options) 24.

(** The duration an option asks for: [None] when the option is absent or
    empty. *)
Definition duration (field : option string) : completion (option Z) :=
  match truthy field with
  | Some d =>
      match TectoCoder.parseDuration d with
      | Normal n => Normal (Some n)
      | Throw e => Throw e
      end
  | None => Normal None
  end.

(** The claims object [encrypt] serialises, given the durations asked for. *)
Definition claims_of (payload : gmap string json) (options : option SignOptions)
    (now : Z) (id : string) (exp nbf : option Z) : gmap string json :=
  TectoCoder.set_claim "aud" (JString <$> truthy (options ≫= audience))
    (TectoCoder.set_claim "iss" (JString <$> truthy (options ≫= issuer))
      (TectoCoder.set_claim "nbf" ((λ d, JNumber (now + d)) <$> nbf)
        (TectoCoder.set_claim "exp" ((λ d, JNumber (now + d)) <$> exp)
          (<["jti" := JString id]> (<["iat" := JNumber now]> payload))))).

(** [P] is [payload] sealed at [iat]: the registered claims are laid over
    the payload's fields, the others are the payload's. *)
Record sealed (payload P : gmap string json) (iat : Z) (id : string)
    (exp nbf : option Z) (iss aud : option string) : Prop := {
  sealed_iat : P !! "iat" = Some (JNumber iat);
  sealed_jti : P !! "jti" = Some (JString id);
  sealed_exp : P !! "exp" =
    match exp with Some d => Some (JNumber (iat + d)) | None => payload !! "exp" end;
  sealed_nbf : P !! "nbf" =
    match nbf with Some d => Some (JNumber (iat + d)) | None => payload !! "nbf" end;
  sealed_iss : P !! "iss" =
    match iss with Some s => Some (JString s) | None => payload !! "iss" end;
  sealed_aud : P !! "aud" =
    match aud with Some s => Some (JString s) | None => payload !! "aud" end;
  sealed_other k :
    k ∉ ["iat"; "jti"; "exp"; "nbf"; "iss"; "aud"] → P !! k = payload !! k }.

(** The time claims of [P] let it through at [now]. *)
Definition alive (now : Z) (P : gmap string json) : Prop :=
  (∀ t, P !! "exp" = Some (JNumber t) → now < t) ∧
  (∀ t, P !! "nbf" = Some (JNumber t) → t ≤ now).

(** Every character of [s] satisfies [p]. *)
Definition all_chars (p : ascii → bool) (s : string) : Prop :=
  Forall (λ c, p c = true) (list_ascii_of_string s).

(** [0-9a-f], and the value of such a digit. *)
Definition is_lower_hex (c : ascii) : bool :=
  TectoCoder.is_digit c
  || ((97 <=? TectoCoder.code c)%N && (TectoCoder.code c <=? 102)%N).

Definition hex_value (c : ascii) : N :=
  if TectoCoder.is_digit c then (TectoCoder.code c - 48)%N
  else (TectoCoder.code c - 87)%N.

(** The buffer [r] exists and no id refers to it. *)
Definition orphan (r : nat) (st : MemoryKeyStore.t) : Prop :=
  is_Some (MemoryKeyStore.heap st !! r) ∧
  ∀ id, MemoryKeyStore.keys st !! id ≠ Some r.

Section Opens.
Context `{E : Externals}.

(** The token passes every step of [decrypt] up to and including the AEAD
    open, which gives [plaintext]. *)
Definition opens (keyStore : MemoryKeyStore.t) (token : string)
    (plaintext : list byte) : Prop :=
  ∃ kid nonceB64 ciphertextB64 key nonce ciphertext,
    TectoCoder.split "." token = ["tecto"; "v1"; kid; nonceB64; ciphertextB64] ∧
    MemoryKeyStore.keys keyStore !! kid = Some key ∧
    base64url_decode nonceB64 = Some nonce ∧
    base64url_decode ciphertextB64 = Some ciphertext ∧
    length nonce = 24%nat ∧
    xchacha20poly1305_decrypt (TectoCoder.bytes_of keyStore key) nonce ciphertext
      = Some plaintext.

End Opens.

(** * Reference libraries

    One implementation of [Externals] that meets [ExternalsOk], to run the
    engine on concrete inputs: base64url as @scure/base writes it (URL-safe
    alphabet, padded), the identity for UTF-8 (exact on ASCII text), and
    stand-ins for the cipher and for JSON that only keep their contracts:
    the cipher appends a 16-byte tag made of key and nonce bytes, and JSON
    text is the binary numeral of the value's code. *)

Module Reference.

(** ** base64url *)

Module Base64url.

Definition alphabet : list ascii :=
  list_ascii_of_string "ABCDEFGHIJKLMNOPQRSTUVWXYZabcdefghijklmnopqrstuvwxyz0123456789-_".

Definition pad : ascii := "="%char.

Definition sextet_char (d : N) : ascii := default pad (alphabet !! N.to_nat d).

Fixpoint index_of (c : ascii) (l : list ascii) : option N :=
  match l with
  | [] => None
  | x :: l => if decide (x = c) then Some 0%N else N.succ <$> index_of c l
  end.

Definition char_sextet (c : ascii) : option N := index_of c alphabet.

Definition byte_of_N (n : N) : byte := default x00 (Byte.of_N n).

Local Open Scope N_scope.

Fixpoint encode_chars (bytes : list byte) : list ascii :=
  match bytes with
  | [] => []
  | [a] =>
      let n := Byte.to_N a * 16 in
      [sextet_char (n / 64); sextet_char (n mod 64); pad; pad]
  | [a; b] =>
      let n := (Byte.to_N a * 256 + Byte.to_N b) * 4 in
      [sextet_char (n / 4096); sextet_char (n / 64 mod 64); sextet_char (n mod 64); pad]
  | a :: b :: c :: rest =>
      let n := Byte.to_N a * 65536 + Byte.to_N b * 256 + Byte.to_N c in
      sextet_char (n / 262144) :: sextet_char (n / 4096 mod 64)
      :: sextet_char (n / 64 mod 64) :: sextet_char (n mod 64) :: encode_chars rest
  end.

Fixpoint decode_chars (chars : list ascii) : option (list byte) :=
  match chars with
  | [] => Some []
  | c1 :: c2 :: c3 :: c4 :: rest =>
      d1 ← char_sextet c1;
      d2 ← char_sextet c2;
      if decide (c4 = pad) then
        match rest with
        | [] =>
            if decide (c3 = pad) then
              if decide (d2 mod 16 = 0) then Some [byte_of_N (d1 * 4 + d2 / 16)]
              else None
            else
              d3 ← char_sextet c3;
              if decide (d3 mod 4 = 0)
              then Some [byte_of_N (d1 * 4 + d2 / 16);
                         byte_of_N (d2 mod 16 * 16 + d3 / 4)]
              else None
        | _ => None
        end
      else
        d3 ← char_sextet c3;
        d4 ← char_sextet c4;
        tail ← decode_chars rest;
        Some (byte_of_N (d1 * 4 + d2 / 16)
              :: byte_of_N (d2 mod 16 * 16 + d3 / 4)
              :: byte_of_N (d3 mod 4 * 64 + d4) :: tail)
  | _ => None
  end.

Definition encode (bytes : list byte) : string :=
  string_of_list_ascii (encode_chars bytes).
Definition decode (s : string) : option (list byte) :=
  decode_chars (list_ascii_of_string s).

End Base64url.

(** ** A stand-in for the cipher *)

Module Cipher.

Local Open Scope nat_scope.

#[global] Instance byte_eq_dec : EqDecision byte.
Proof.
  intros a b. destruct (decide (Byte.to_N a = Byte.to_N b)) as [Heq|Hne].
  - left. apply (f_equal Byte.of_N) in Heq. rewrite !Byte.of_to_N in Heq. congruence.
  - right. congruence.
Defined.

Definition TAG_LENGTH : nat := 16.

Definition tag (key nonce : list byte) : list byte :=
  (take 8 key ++ take 8 nonce)%list.

Definition sizes_ok (key nonce : list byte) : Prop :=
  length key = 32%nat ∧ length nonce = 24%nat.

Definition encrypt (key nonce plaintext : list byte) : option (list byte) :=
  if decide (sizes_ok key nonce) then Some (plaintext ++ tag key nonce)%list
  else None.

Definition decrypt (key nonce ciphertext : list byte) : option (list byte) :=
  let n := (length ciphertext - TAG_LENGTH)%nat in
  if decide (sizes_ok key nonce ∧ (TAG_LENGTH ≤ length ciphertext)%nat
             ∧ drop n ciphertext = tag key nonce)
  then Some (take n ciphertext)
  else None.

End Cipher.

(** ** A stand-in for JSON *)

Module Json.

Local Open Scope nat_scope.

(** A value as a tree of its constructors; the trees are countable. *)
Fixpoint json_tree (v : json) : gen_tree (bool + Z + string) :=
  match v with
  | JNull => GenNode 0 []
  | JBool b => GenLeaf (inl (inl b))
  | JNumber n => GenLeaf (inl (inr n))
  | JString s => GenLeaf (inr s)
  | JArray items => GenNode 1 (json_tree <$> items)
  | JObject fields =>
      GenNode 2 (map_fold (λ k v acc, GenNode 3 [GenLeaf (inr k); json_tree v] :: acc)
                          [] fields)
  end.

Fixpoint tree_json (t : gen_tree (bool + Z + string)) : json :=
  match t with
  | GenLeaf (inl (inl b)) => JBool b
  | GenLeaf (inl (inr n)) => JNumber n
  | GenLeaf (inr s) => JString s
  | GenNode 0 _ => JNull
  | GenNode 1 ts => JArray (tree_json <$> ts)
  | GenNode _ ts =>
      JObject (list_to_map
        ((λ t, match t with
               | GenNode _ [GenLeaf (inr k); v] => (k, tree_json v)
               | _ => ("", JNull)
               end) <$> ts))
  end.

Fixpoint positive_bits (p : positive) : string :=
  match p with
  | xH => ""
  | xO p => String "0" (positive_bits p)
  | xI p => String "1" (positive_bits p)
  end.

Fixpoint bits_positive (s : string) : option positive :=
  match s with
  | "" => Some xH
  | String c s =>
      p ← bits_positive s;
      if decide (c = "0"%char) then Some (xO p)
      else if decide (c = "1"%char) then Some (xI p)
      else None
  end.

Definition stringify (v : json) : string := positive_bits (encode (json_tree v)).
Definition parse (s : string) : option json :=
  p ← bits_positive s; t ← decode p; Some (tree_json t).

(** The measure of the induction on values. *)
Fixpoint json_size (v : json) : nat :=
  match v with
  | JArray items => S (sum_list (json_size <$> items))
  | JObject fields => S (map_fold (λ _ v acc, json_size v + acc) 0 fields)
  | _ => 1
  end.

End Json.

#[global] Instance externals : Externals := {|
  xchacha20poly1305_encrypt := Cipher.encrypt;
  xchacha20poly1305_decrypt := Cipher.decrypt;
  base64url_encode := Base64url.encode;
  base64url_decode := Base64url.decode;
  JSON_stringify := Json.stringify;
  JSON_parse := Json.parse;
  TextEncoder_encode := list_byte_of_string;
  TextDecoder_decode := string_of_list_byte |}.

End Reference.

(** * Concrete inputs *)

Module Examples.
Import MemoryKeyStore.

Definition K1 : list byte := list_byte_of_string "ABCDEFGHIJKLMNOPQRSTUVWXYZabcdef".
Definition K2 : list byte := list_byte_of_string "0123456789abcdefghijklmnopqrstuv".

Definition store_k1 : t := after (AddKey "k1" K1) empty.
Definition store_k1_k2 : t := after (Rotate "k2" K2) store_k1.
Definition store_dotted : t := after (AddKey "a.b" K1) empty.

Definition world (random : nat → byte) : World :=
  {| Date_now := 1700000000123; random := random; drawn := 0 |}.

(** A source whose bytes all differ over a long stretch, and one that gives
    the same 40 bytes over and over. *)
Definition counting (i : nat) : byte := default x00 (Byte.of_nat (i mod 256)).
Definition repeating (i : nat) : byte := counting (i mod 40 * 5 + 1).

Definition one_hour : option SignOptions :=
  Some {| expiresIn := Some "1h"; issuer := None; audience := None;
          jti := None; notBefore := None |}.
Definition not_before_one_hour : option SignOptions :=
  Some {| expiresIn := None; issuer := None; audience := None;
          jti := None; notBefore := Some "1h" |}.
Definition admin : gmap string json := {[ "role" := JString "admin" ]}.

(** The token of [admin] sealed for one hour under [store_k1] with the
    reference libraries, the claims it seals and their serialisation. *)
Definition claims_k1 : gmap string json :=
  claims_of admin one_hour 1700000000 (jti_of one_hour (world counting)) (Some 3600) None.

Definition plaintext_k1 : list byte :=
  TextEncoder_encode (JSON_stringify (JObject claims_k1)).

Definition token_of (result : completion string * World) : string :=
  match fst result with
  | Normal token => token
  | Throw _ => ""
  end.

Definition token_k1 : string :=
  token_of (TectoCoder.encrypt store_k1 admin one_hour (world counting)).





(** The token of a second call with the same arguments, made in the world
    the first call left. *)
Definition token_k1_again : string :=
  token_of (TectoCoder.encrypt store_k1 admin one_hour
              (advance 40 (world counting))).

End Examples.

(** * Properties *)

(** ** The reference libraries keep the contracts *)

Section Base64urlFacts.
Import Reference.Base64url.
Local Open Scope N_scope.

Lemma char_sextet_char d : d < 64 → char_sextet (sextet_char d) = Some d.
Proof.
  intros Hd.
  assert (H : Forall (λ i, char_sextet (sextet_char (N.of_nat i)) = Some (N.of_nat i)) (seq 0 64)).
  { apply (bool_decide_unpack _). by vm_compute. }
  rewrite Forall_forall in H. specialize (H (N.to_nat d)).
  rewrite N2Nat.id in H. apply H. apply in_seq. lia.
Qed.

Lemma sextet_char_alphabet d : d < 64 → sextet_char d ≠ pad ∧ sextet_char d ≠ "."%char.
Proof.
  intros Hd.
  assert (H : Forall (λ i, sextet_char (N.of_nat i) ≠ pad ∧ sextet_char (N.of_nat i) ≠ "."%char) (seq 0 64)).
  { apply (bool_decide_unpack _). by vm_compute. }
  rewrite Forall_forall in H. specialize (H (N.to_nat d)).
  rewrite N2Nat.id in H. apply H. apply in_seq. lia.
Qed.

Lemma byte_of_to_N b : byte_of_N (Byte.to_N b) = b.
Proof. unfold byte_of_N. by rewrite Byte.of_to_N. Qed.

Lemma to_N_lt b : Byte.to_N b < 256.
Proof. pose proof (Byte.to_N_bounded b). lia. Qed.

Lemma list_ind3 {A} (P : list A → Prop) :
  P [] → (∀ a, P [a]) → (∀ a b, P [a; b]) →
  (∀ a b c l, P l → P (a :: b :: c :: l)) → ∀ l, P l.
Proof. intros H0 H1 H2 H3. fix IH 1. intros [|a [|b [|c l]]]; [apply H0 | apply H1 | apply H2 | apply H3, IH].
Qed.

Lemma sextets_of_triple A B C :
  A < 256 → B < 256 → C < 256 →
  let n := A * 65536 + B * 256 + C in
  let d1 := n / 262144 in let d2 := n / 4096 mod 64 in
  let d3 := n / 64 mod 64 in let d4 := n mod 64 in
  d1 < 64 ∧ d2 < 64 ∧ d3 < 64 ∧ d4 < 64 ∧
  d1 * 4 + d2 / 16 = A ∧ d2 mod 16 * 16 + d3 / 4 = B ∧ d3 mod 4 * 64 + d4 = C.
Proof. intros. cbv zeta. repeat split; lia. Qed.

Lemma sextets_of_pair A B :
  A < 256 → B < 256 →
  let n := (A * 256 + B) * 4 in
  let d1 := n / 4096 in let d2 := n / 64 mod 64 in let d3 := n mod 64 in
  d1 < 64 ∧ d2 < 64 ∧ d3 < 64 ∧ d3 mod 4 = 0 ∧
  d1 * 4 + d2 / 16 = A ∧ d2 mod 16 * 16 + d3 / 4 = B.
Proof. intros. cbv zeta. repeat split; lia. Qed.

Lemma sextets_of_single A :
  A < 256 →
  let n := A * 16 in
  let d1 := n / 64 in let d2 := n mod 64 in
  d1 < 64 ∧ d2 < 64 ∧ d2 mod 16 = 0 ∧ d1 * 4 + d2 / 16 = A.
Proof. intros. cbv zeta. repeat split; lia. Qed.

Lemma decode_encode_chars bytes : decode_chars (encode_chars bytes) = Some bytes.
Proof.
  induction bytes as [|a|a b|a b c rest IH] using list_ind3.
  - done.
  - cbn [encode_chars].
    destruct (sextets_of_single (Byte.to_N a) (to_N_lt a)) as (H1 & H2 & Hz & Ha).
    cbn [decode_chars]. rewrite !char_sextet_char by done. simpl.
    case_decide; [|done]. by rewrite Ha, byte_of_to_N.
  - cbn [encode_chars].
    destruct (sextets_of_pair _ _ (to_N_lt a) (to_N_lt b))
      as (H1 & H2 & H3 & Hz & Ha & Hb).
    cbn [decode_chars]. rewrite !char_sextet_char by done. simpl.
    destruct (decide (sextet_char _ = pad)) as [Hpad|_];
      [by apply sextet_char_alphabet in Hpad|].
    rewrite ?char_sextet_char by done. simpl.
    case_decide; [|done]. by rewrite Ha, Hb, !byte_of_to_N.
  - cbn [encode_chars].
    destruct (sextets_of_triple _ _ _ (to_N_lt a) (to_N_lt b) (to_N_lt c))
      as (H1 & H2 & H3 & H4 & Ha & Hb & Hc).
    cbn [decode_chars]. rewrite !char_sextet_char by done. simpl.
    destruct (decide (sextet_char _ = pad)) as [Hpad|_];
      [by apply sextet_char_alphabet in Hpad|].
    rewrite ?char_sextet_char by done. simpl. rewrite IH. simpl.
    by rewrite Ha, Hb, Hc, !byte_of_to_N.
Qed.

Lemma encode_chars_no_dot bytes : "."%char ∉ encode_chars bytes.
Proof.
  induction bytes as [|a|a b|a b c rest IH] using list_ind3.
  - set_solver.
  - cbn [encode_chars].
    destruct (sextets_of_single (Byte.to_N a) (to_N_lt a)) as (H1 & H2 & _).
    apply sextet_char_alphabet in H1, H2. set_solver.
  - cbn [encode_chars].
    destruct (sextets_of_pair _ _ (to_N_lt a) (to_N_lt b)) as (H1 & H2 & H3 & _).
    apply sextet_char_alphabet in H1, H2, H3. set_solver.
  - cbn [encode_chars].
    destruct (sextets_of_triple _ _ _ (to_N_lt a) (to_N_lt b) (to_N_lt c))
      as (H1 & H2 & H3 & H4 & _).
    apply sextet_char_alphabet in H1, H2, H3, H4. set_solver.
Qed.


Lemma Base64url_decode_encode bytes : decode (encode bytes) = Some bytes.
Proof.
  unfold decode, encode. rewrite list_ascii_of_string_of_list_ascii.
  apply decode_encode_chars.
Qed.

Lemma Base64url_encode_no_dot bytes : no_dot (encode bytes).
Proof.
  unfold no_dot, encode. rewrite list_ascii_of_string_of_list_ascii.
  apply encode_chars_no_dot.
Qed.

End Base64urlFacts.

Section CipherFacts.
Import Reference.Cipher.
Local Open Scope nat_scope.

Lemma length_tag key nonce : sizes_ok key nonce → length (tag key nonce) = TAG_LENGTH.
Proof.
  intros [Hk Hn]. unfold tag, TAG_LENGTH.
  rewrite length_app, !length_take, Hk, Hn. done.
Qed.

Lemma Cipher_decrypt_encrypt key nonce plaintext ciphertext :
  encrypt key nonce plaintext = Some ciphertext →
  decrypt key nonce ciphertext = Some plaintext.
Proof.
  unfold encrypt, decrypt. case_decide as Hs; [|done]. intros [= <-].
  pose proof (length_tag _ _ Hs) as Ht. rewrite length_app, Ht.
  replace (length plaintext + TAG_LENGTH - TAG_LENGTH)%nat
    with (length plaintext) by lia.
  rewrite drop_app_length, take_app_length.
  rewrite decide_True; [done | repeat split; try apply Hs; lia].
Qed.

End CipherFacts.

Section JsonFacts.
Import Reference.Json.
Local Open Scope nat_scope.

Lemma json_size_item items v :
  v ∈ items → json_size v < json_size (JArray items).
Proof.
  intros Hin. change (json_size v < S (sum_list (json_size <$> items))).
  induction Hin as [v items|v w items _ IH]; rewrite fmap_cons; simpl; lia.
Qed.

Lemma json_size_field (fields : gmap string json) k v :
  fields !! k = Some v → json_size v < json_size (JObject fields).
Proof.
  intros Hk.
  change (json_size v < S (map_fold (λ _ v acc, json_size v + acc) 0 fields)).
  rewrite (map_fold_delete_L _ _ k v fields); [lia | intros; lia | done].
Qed.

Lemma json_ind' (P : json → Prop) :
  P JNull → (∀ b, P (JBool b)) → (∀ n, P (JNumber n)) → (∀ s, P (JString s)) →
  (∀ items, Forall P items → P (JArray items)) →
  (∀ fields, map_Forall (λ _, P) fields → P (JObject fields)) →
  ∀ v, P v.
Proof.
  intros Hnull Hbool Hnum Hstr Harr Hobj v.
  remember (json_size v) as n eqn:Hn. revert v Hn.
  induction (lt_wf n) as [n _ IH]. intros v ->.
  destruct v as [| | | |items|fields]; auto.
  - apply Harr, Forall_forall. intros v Hv. apply list_elem_of_In in Hv.
    by apply (IH _ (json_size_item _ _ Hv)).
  - apply Hobj. intros k v Hk.
    by apply (IH _ (json_size_field _ _ _ Hk)).
Qed.

Lemma fold_cons_fmap {A B} (h : string → A → B) (fields : gmap string A) :
  map_fold (λ k v acc, h k v :: acc) [] fields = uncurry h <$> map_to_list fields.
Proof.
  rewrite map_fold_foldr. induction (map_to_list fields) as [|[k v] l IH]; [done|].
  simpl. by rewrite IH.
Qed.

Lemma tree_json_tree v : tree_json (json_tree v) = v.
Proof.
  induction v as [| | | |items IH|fields IH] using json_ind'; try done.
  - simpl. f_equal. rewrite <-list_fmap_compose.
    rewrite <-(list_fmap_id items) at 2. apply Forall_fmap_ext_1.
    induction IH; constructor; done.
  - simpl. f_equal. rewrite fold_cons_fmap, <-list_fmap_compose.
    rewrite <-(list_to_map_to_list fields) at 2. f_equal.
    rewrite <-(list_fmap_id (map_to_list fields)) at 2.
    apply Forall_fmap_ext_1. apply map_Forall_to_list in IH.
    induction IH as [|[k v] l Hv _ IHl]; constructor; [|done].
    simpl in *. by rewrite Hv.
Qed.

Lemma bits_positive_bits p : bits_positive (positive_bits p) = Some p.
Proof. induction p as [p IH|p IH|]; simpl; rewrite ?IH; done. Qed.

Lemma Json_parse_stringify v : parse (stringify v) = Some v.
Proof.
  unfold parse, stringify. rewrite bits_positive_bits. simpl.
  rewrite countable.decode_encode. simpl. by rewrite tree_json_tree.
Qed.

End JsonFacts.

Lemma externals_ok : ExternalsOk Reference.externals.
Proof.
  split; simpl.
  - intros key nonce plaintext Hk Hn. unfold Reference.Cipher.encrypt.
    rewrite decide_True by done. eauto.
  - apply Cipher_decrypt_encrypt.
  - apply Base64url_decode_encode.
  - apply Base64url_encode_no_dot.
  - apply Json_parse_stringify.
  - apply string_of_list_byte_of_string.
Qed.

(** ** The entropy gate *)

Section EntropyGate.
Import Security.

Lemma at_or_0_lookup (key : list byte) i b :
  key !! i = Some b → at_or_0 key i = Byte.to_N b.
Proof. unfold at_or_0. by intros ->. Qed.

Lemma to_N_inj a b : Byte.to_N a = Byte.to_N b → a = b.
Proof.
  intros H. apply (f_equal Byte.of_N) in H.
  rewrite !Byte.of_to_N in H. congruence.
Qed.

Lemma all_until_break_true p from steps :
  all_until_break p from steps = true ↔
  ∀ i, (from ≤ i < from + steps)%nat → p i = true.
Proof.
  revert from. induction steps as [|k IH]; intros from; simpl.
  - split; [intros _ i ?; lia | done].
  - destruct (p from) eqn:Hp.
    + rewrite IH. split; intros H i Hi.
      * destruct (decide (i = from)) as [->|]; [done | apply H; lia].
      * apply H. lia.
    + split; [done | intros H]. rewrite H in Hp; [done | lia].
Qed.

Lemma isAllZeros_true key :
  isAllZeros key = true ↔ Forall (λ b, b = x00) key.
Proof.
  unfold isAllZeros. rewrite all_until_break_true, Forall_lookup. split.
  - intros H i b Hb. apply to_N_inj.
    specialize (H i). rewrite (at_or_0_lookup _ _ _ Hb) in H.
    apply N.eqb_eq, H. apply lookup_lt_Some in Hb. lia.
  - intros H i Hi. apply N.eqb_eq.
    destruct (lookup_lt_is_Some_2 key i) as [b Hb]; [lia|].
    rewrite (at_or_0_lookup _ _ _ Hb), (H i b Hb). done.
Qed.

Lemma isRepeating_true key :
  isRepeating key = true ↔ ∃ b, Forall (λ b', b' = b) key.
Proof.
  unfold isRepeating. rewrite all_until_break_true. split.
  - intros H. destruct key as [|b0 rest]; [by exists x00|].
    exists b0. apply Forall_lookup. intros i b Hb.
    destruct i as [|i]; [by injection Hb|].
    apply to_N_inj. rewrite <-(at_or_0_lookup _ _ _ Hb).
    apply N.eqb_eq, H. apply lookup_lt_Some in Hb. simpl in *. lia.
  - intros [b Hall] i Hi. apply N.eqb_eq.
    rewrite Forall_lookup in Hall.
    destruct (lookup_lt_is_Some_2 key i) as [bi Hbi]; [lia|].
    destruct (lookup_lt_is_Some_2 key 0) as [b0 Hb0]; [lia|].
    rewrite (at_or_0_lookup _ _ _ Hbi), (at_or_0_lookup _ _ _ Hb0).
    by rewrite (Hall _ _ Hbi), (Hall _ _ Hb0).
Qed.

Lemma uniqueBytes_prefix key n (s : gset N) :
  (n ≤ length key)%nat →
  foldl (λ (s : gset N) i, {[ at_or_0 key i ]} ∪ s) s (seq 0 n)
  = s ∪ list_to_set (Byte.to_N <$> take n key).
Proof.
  induction n as [|n IH]; intros Hn.
  - simpl. set_solver.
  - rewrite seq_S, foldl_snoc, IH by lia. simpl.
    destruct (lookup_lt_is_Some_2 key n) as [b Hb]; [lia|].
    rewrite (take_S_r _ _ _ Hb), fmap_app, list_to_set_app_L.
    rewrite (at_or_0_lookup _ _ _ Hb). simpl. set_solver.
Qed.

Lemma uniqueBytes_list_to_set key :
  uniqueBytes key = list_to_set (Byte.to_N <$> key).
Proof.
  unfold uniqueBytes. rewrite uniqueBytes_prefix by done.
  rewrite firstn_all. set_solver.
Qed.

Lemma size_uniqueBytes key : size (uniqueBytes key) = distinct_values key.
Proof.
  rewrite uniqueBytes_list_to_set. unfold distinct_values.
  rewrite <-(size_list_to_set (C := gset N)) by apply NoDup_remove_dups.
  f_equal. apply set_eq. intros x.
  by rewrite !elem_of_list_to_set, elem_of_remove_dups.
Qed.

Lemma distinct_values_constant key b :
  Forall (λ b', b' = b) key → (distinct_values key ≤ 1)%nat.
Proof.
  intros Hall. unfold distinct_values.
  assert (Hsub : remove_dups (Byte.to_N <$> key) ⊆ [Byte.to_N b]).
  { intros x. rewrite elem_of_remove_dups, list_elem_of_fmap.
    intros (b' & -> & Hin). apply list_elem_of_In in Hin.
    rewrite Forall_forall in Hall. rewrite (Hall b' Hin). set_solver. }
  apply (submseteq_length _ [Byte.to_N b]).
  apply NoDup_submseteq; [apply NoDup_remove_dups | done].
Qed.

Lemma assertEntropy_outcome key :
  assertEntropy key = Normal tt ∨ fails_with (assertEntropy key) KeyInvalid.
Proof.
  unfold assertEntropy, fails_with.
  repeat case_match; eauto.
Qed.

Lemma assertEntropy_Normal key :
  assertEntropy key = Normal tt ↔
  length key = 32%nat ∧ (8 ≤ distinct_values key)%nat.
Proof.
  unfold assertEntropy, KEY_LENGTH, MIN_UNIQUE_BYTES.
  rewrite size_uniqueBytes.
  destruct (Nat.eqb_spec (length key) 32) as [Hlen|Hlen]; simpl; [|naive_solver].
  destruct (isAllZeros key) eqn:Hz.
  { apply isAllZeros_true, distinct_values_constant in Hz. split; [done | lia]. }
  destruct (isRepeating key) eqn:Hr.
  { apply isRepeating_true in Hr as [b Hb].
    apply distinct_values_constant in Hb. split; [done | lia]. }
  destruct (Nat.ltb_spec (distinct_values key) 8); split; try done; lia.
Qed.

End EntropyGate.

(** ** The key store *)

Section KeyStore.
Import MemoryKeyStore.

Lemma set_over_zeros (secret : list byte) :
  (secret ++ drop (length secret) (zeros (length secret)))%list = secret.
Proof.
  unfold zeros. rewrite drop_replicate, Nat.sub_diag. apply app_nil_r.
Qed.

Lemma addKey_run id secret st :
  addKey id secret st =
  match Security.assertEntropy secret with
  | Normal _ => (Normal tt, added id secret st)
  | Throw e => (Throw e, st)
  end.
Proof.
  unfold addKey, js_bind, js_lift. destruct (Security.assertEntropy secret); [|done].
  unfold new_Uint8Array, buffer_set, keys_set, js_get, js_modify, added. simpl.
  rewrite alter_insert_eq, set_over_zeros.
  by destruct (currentKeyId st).
Qed.

Lemma rotate_run newId newSecret st :
  rotate newId newSecret st =
  match Security.assertEntropy newSecret with
  | Normal _ => (Normal tt, with_current newId (added newId newSecret st))
  | Throw e => (Throw e, st)
  end.
Proof.
  unfold rotate, js_bind. rewrite addKey_run.
  by destruct (Security.assertEntropy newSecret).
Qed.

Lemma removeKey_run id st :
  removeKey id st =
  match keys st !! id with
  | None => (Throw (KeyError (KeyNotFoundMsg id)), st)
  | Some r =>
      if decide (currentKeyId st = Some id)
      then (Throw (KeyError CannotRemoveCurrent), st)
      else (Normal tt, deleted id (wiped r st))
  end.
Proof.
  unfold removeKey, js_bind, js_get, js_throw. simpl.
  destruct (keys st !! id); [|done]. by case_decide.
Qed.

Lemma getKey_run id st :
  getKey id st =
  (match keys st !! id with
   | Some r => Normal r
   | None => Throw (KeyError (KeyNotFoundMsg id))
   end, st).
Proof. unfold getKey, js_bind, js_get. simpl. by destruct (keys st !! id). Qed.

Lemma getCurrentKeyId_run st :
  getCurrentKeyId st =
  (match currentKeyId st with
   | Some id => Normal id
   | None => Throw (KeyError NoKeysInStore)
   end, st).
Proof. unfold getCurrentKeyId, js_bind, js_get. simpl. by destruct (currentKeyId st). Qed.

Lemma consistent_empty : consistent empty.
Proof. split; simpl; intros *; try rewrite lookup_empty; done. Qed.

Lemma fresh_ref_unused st id r :
  consistent st → keys st !! id = Some r → r ≠ fresh (dom (heap st)).
Proof.
  intros Hc Hid ->. destruct (refs_allocated _ Hc _ _ Hid) as (b & Hb & _).
  apply (is_fresh (dom (heap st))). apply elem_of_dom. eauto.
Qed.

Lemma consistent_added id secret st :
  length secret = 32%nat → consistent st → consistent (added id secret st).
Proof.
  intros Hlen Hc. split; unfold added; simpl.
  - intros id' r. rewrite lookup_insert. case_decide as Hid.
    + intros [= <-]. rewrite lookup_insert_eq. eauto.
    + intros Hr. rewrite lookup_insert_ne by (by apply not_eq_sym, (fresh_ref_unused st id')).
      by apply (refs_allocated _ Hc id').
  - intros id1 id2 r. rewrite !lookup_insert.
    repeat case_decide; subst; try done.
    + intros [= <-] Hr. by destruct (fresh_ref_unused st id2 _ Hc Hr).
    + intros Hr [= <-]. by destruct (fresh_ref_unused st id1 _ Hc Hr).
    + apply (refs_distinct _ Hc).
  - intros id'. rewrite lookup_insert. case_decide; [eauto|].
    destruct (currentKeyId st) eqn:Hcur; intros [= <-]; [|done].
    by apply (current_stored _ Hc).
  - by destruct (currentKeyId st).
Qed.

Lemma consistent_with_current id st :
  is_Some (keys st !! id) → consistent st → consistent (with_current id st).
Proof.
  intros Hid Hc. split; unfold with_current; simpl.
  - apply (refs_allocated _ Hc).
  - apply (refs_distinct _ Hc).
  - by intros ? [= <-].
  - done.
Qed.

Lemma consistent_removed id r st :
  keys st !! id = Some r → currentKeyId st ≠ Some id →
  consistent st → consistent (deleted id (wiped r st)).
Proof.
  intros Hid Hcur Hc. split; unfold deleted, wiped; simpl.
  - intros id' r'. rewrite lookup_delete. case_decide; [done|]. intros Hr'.
    destruct (refs_allocated _ Hc _ _ Hr') as (b & Hb & Hlen).
    rewrite lookup_alter. case_decide; subst; rewrite Hb; simpl; eauto.
    eexists; split; [done|]. unfold fill_0, zeros. by rewrite length_replicate.
  - intros id1 id2 r'. rewrite !lookup_delete. repeat case_decide; try done.
    apply (refs_distinct _ Hc).
  - intros id' Hid'. rewrite lookup_delete_ne by congruence.
    by apply (current_stored _ Hc).
  - intros Hnone. pose proof (current_set _ Hc Hnone) as Hempty.
    rewrite Hempty in Hid. by rewrite lookup_empty in Hid.
Qed.

Lemma consistent_after c st : consistent st → consistent (after c st).
Proof.
  intros Hc. unfold after. destruct c as [id secret|id secret|id|id| |]; simpl.
  - rewrite addKey_run.
    destruct (Security.assertEntropy secret) as [[]|] eqn:Hgate; [|done].
    apply assertEntropy_Normal in Hgate as [Hlen _]. by apply consistent_added.
  - rewrite rotate_run.
    destruct (Security.assertEntropy secret) as [[]|] eqn:Hgate; [|done].
    apply assertEntropy_Normal in Hgate as [Hlen _]. simpl.
    apply consistent_with_current; [|by apply consistent_added].
    unfold added. simpl. rewrite lookup_insert_eq. eauto.
  - rewrite removeKey_run. destruct (keys st !! id) eqn:Hid; [|done].
    case_decide; [done|]. by apply consistent_removed.
  - by rewrite getKey_run.
  - by rewrite getCurrentKeyId_run.
  - done.
Qed.

Lemma reachable_consistent st : reachable st → consistent st.
Proof.
  induction 1; [apply consistent_empty | by apply consistent_after].
Qed.

Lemma secret_of_added id secret st id' :
  consistent st →
  secret_of (added id secret st) id' =
  if decide (id = id') then Some secret else secret_of st id'.
Proof.
  intros Hc. unfold secret_of, bytes_at, added. simpl.
  rewrite lookup_insert. case_decide; simpl; [by rewrite lookup_insert_eq|].
  destruct (keys st !! id') as [r|] eqn:Hr; [simpl|done].
  by rewrite lookup_insert_ne by (by apply not_eq_sym, (fresh_ref_unused st id')).
Qed.

End KeyStore.

(** ** The token engine *)

Section Split.
Import TectoCoder.

Lemma no_dot_cons c s : no_dot (String c s) ↔ c ≠ "."%char ∧ no_dot s.
Proof. unfold no_dot. simpl. rewrite not_elem_of_cons. naive_solver. Qed.

Lemma dots_app s1 s2 : dots (s1 ++ s2) = (dots s1 + dots s2)%nat.
Proof.
  induction s1 as [|c s1 IH]; [done|].
  change (String c s1 ++ s2) with (String c (s1 ++ s2)). cbn [dots].
  case_decide; lia.
Qed.

Lemma dots_no_dot s : no_dot s → dots s = 0%nat.
Proof.
  induction s as [|c s IH]; [done|]. rewrite no_dot_cons. intros [Hc Hs].
  cbn [dots]. rewrite decide_False by done. auto.
Qed.

Lemma length_split s : length (split "." s) = S (dots s).
Proof.
  induction s as [|c s IH]; [done|]. cbn [split dots].
  case_decide; [simpl; lia|].
  destruct (split "." s); simpl in *; lia.
Qed.

Lemma length_split_frame kid nonceB64 ciphertextB64 :
  no_dot nonceB64 → no_dot ciphertextB64 →
  length (split "." (frame kid nonceB64 ciphertextB64)) = (5 + dots kid)%nat.
Proof.
  intros Hn Hc. rewrite length_split. unfold frame.
  rewrite !dots_app, (dots_no_dot _ Hn), (dots_no_dot _ Hc). simpl. lia.
Qed.

Lemma split_no_dot s : no_dot s → split "." s = [s].
Proof.
  induction s as [|c s IH]; [done|].
  rewrite no_dot_cons. intros [Hc Hs]. simpl.
  rewrite decide_False by done. by rewrite IH.
Qed.

Lemma split_segment s rest :
  no_dot s → split "." (s ++ "." ++ rest) = s :: split "." rest.
Proof.
  induction s as [|c s IH]; [done|].
  rewrite no_dot_cons. intros [Hc Hs].
  change (String c s ++ "." ++ rest) with (String c (s ++ "." ++ rest)).
  cbn [split]. rewrite decide_False by done. by rewrite IH.
Qed.

Lemma append_inv_head s a b : s ++ a = s ++ b → a = b.
Proof.
  induction s as [|c s IH]; [done|].
  change (String c s ++ a) with (String c (s ++ a)).
  change (String c s ++ b) with (String c (s ++ b)).
  intros [= Heq]. auto.
Qed.

Lemma frame_inj_nonce kid n1 c1 n2 c2 :
  no_dot n1 → no_dot n2 → frame kid n1 c1 = frame kid n2 c2 → n1 = n2.
Proof.
  intros H1 H2 Heq. unfold frame in Heq.
  do 3 apply append_inv_head in Heq.
  apply (f_equal (split ".")) in Heq.
  rewrite !split_segment in Heq by done. congruence.
Qed.

Lemma split_frame kid nonceB64 ciphertextB64 :
  no_dot kid → no_dot nonceB64 → no_dot ciphertextB64 →
  split "." (frame kid nonceB64 ciphertextB64)
  = ["tecto"; "v1"; kid; nonceB64; ciphertextB64].
Proof.
  intros Hk Hn Hc. unfold frame.
  change ("tecto.v1." ++ kid ++ "." ++ nonceB64 ++ "." ++ ciphertextB64)
    with ("tecto" ++ "." ++ "v1" ++ "." ++ kid ++ "." ++ nonceB64 ++ "." ++ ciphertextB64).
  rewrite !split_segment by (done || by vm_compute; set_solver).
  by rewrite split_no_dot.
Qed.

End Split.

Section EngineRuns.
Import MemoryKeyStore TectoCoder.
Context `{E : Externals}.

Lemma getRandomValues_run n w :
  getRandomValues n w = (Normal (random w <$> seq (drawn w) n), advance n w).
Proof.
  unfold getRandomValues, advance. do 2 f_equal.
  transitivity (random w <$> (Nat.add (drawn w) <$> seq 0 n)).
  - by rewrite <-list_fmap_compose.
  - by rewrite fmap_add_seq, Nat.add_0_r.
Qed.

Lemma advance_advance n m w : advance m (advance n w) = advance (n + m) w.
Proof. unfold advance. simpl. f_equal. lia. Qed.

Lemma advance_0 w : advance 0 w = w.
Proof. destruct w. unfold advance. simpl. f_equal. lia. Qed.

(** [encrypt], step by step. *)
Lemma encrypt_run keyStore payload options w :
  encrypt keyStore payload options w =
  match currentKeyId keyStore with
  | None => (Throw (KeyError NoKeysInStore), w)
  | Some kid =>
    match keys keyStore !! kid with
    | None => (Throw (KeyError (KeyNotFoundMsg kid)), w)
    | Some key =>
      let w1 := advance (jti_bytes options) w in
      match duration (options ≫= expiresIn) with
      | Throw e => (Throw e, w1)
      | Normal exp =>
        match duration (options ≫= notBefore) with
        | Throw e => (Throw e, w1)
        | Normal nbf =>
          let claims :=
            claims_of payload options (now_seconds w) (jti_of options w) exp nbf in
          let nonce := nonce_of options w in
          match xchacha20poly1305_encrypt (bytes_of keyStore key) nonce
                  (TextEncoder_encode (JSON_stringify (JObject claims))) with
          | None => (Throw LibraryError, advance 24 w1)
          | Some ciphertext =>
              (Normal (frame kid (base64url_encode nonce) (base64url_encode ciphertext)),
               advance 24 w1)
          end
        end
      end
    end
  end.
Proof.
  unfold encrypt, js_bind at 1, js_lift at 1. rewrite getCurrentKeyId_run. simpl.
  destruct (currentKeyId keyStore) as [kid|]; [|done].
  unfold js_bind at 1, js_lift at 1. rewrite getKey_run. simpl.
  destruct (keys keyStore !! kid) as [key|]; [|done].
  unfold js_bind at 1, js_get at 1.
  assert (Hjti :
    match options ≫= jti with
    | Some id => js_ret id
    | None => generateJti
    end w = (Normal (jti_of options w), advance (jti_bytes options) w)).
  { unfold jti_of, jti_bytes. destruct (options ≫= jti); simpl.
    - by rewrite advance_0.
    - unfold generateJti, js_bind. by rewrite getRandomValues_run. }
  unfold js_bind at 1. rewrite Hjti.
  set (w1 := advance (jti_bytes options) w).
  unfold js_bind at 1, duration.
  destruct (truthy (options ≫= expiresIn)) as [d|]; simpl.
  - unfold js_bind at 1, js_lift at 1.
    destruct (parseDuration d) as [n|e]; [simpl|done].
    unfold js_bind at 1.
    destruct (truthy (options ≫= notBefore)) as [d'|]; simpl.
    + unfold js_bind at 1, js_lift at 1.
      destruct (parseDuration d') as [n'|e']; [simpl|done].
      unfold js_bind at 1. rewrite getRandomValues_run.
      unfold nonce_of, claims_of. simpl.
      by destruct (xchacha20poly1305_encrypt _ _ _).
    + unfold js_bind at 1. rewrite getRandomValues_run.
      unfold nonce_of, claims_of. simpl.
      by destruct (xchacha20poly1305_encrypt _ _ _).
  - unfold js_bind at 1.
    destruct (truthy (options ≫= notBefore)) as [d'|]; simpl.
    + unfold js_bind at 1, js_lift at 1.
      destruct (parseDuration d') as [n'|e']; [simpl|done].
      unfold js_bind at 1. rewrite getRandomValues_run.
      unfold nonce_of, claims_of. simpl.
      by destruct (xchacha20poly1305_encrypt _ _ _).
    + unfold js_bind at 1. rewrite getRandomValues_run.
      unfold nonce_of, claims_of. simpl.
      by destruct (xchacha20poly1305_encrypt _ _ _).
Qed.

End EngineRuns.

Section DecryptRuns.
Import MemoryKeyStore TectoCoder.
Context `{E : Externals}.

Lemma expired_Some now x t :
  expired now x = Some t ↔ x = Some (JNumber t) ∧ t ≤ now.
Proof.
  unfold expired, as_number. destruct x as [[]|]; try naive_solver.
  destruct (Z.leb_spec n now); naive_solver lia.
Qed.

Lemma not_active_Some now x t :
  not_active now x = Some t ↔ x = Some (JNumber t) ∧ now < t.
Proof.
  unfold not_active, as_number. destruct x as [[]|]; try naive_solver.
  rewrite Z.gtb_ltb. destruct (Z.ltb_spec now n); naive_solver lia.
Qed.

Lemma expired_None now x :
  expired now x = None ↔ ∀ t, x = Some (JNumber t) → now < t.
Proof.
  destruct (expired now x) as [t|] eqn:Hx.
  - apply expired_Some in Hx as [-> Ht]. split; [done|].
    intros H. specialize (H t eq_refl). lia.
  - split; [|done]. intros _ t ->.
    destruct (Z.le_gt_cases t now) as [Hle|]; [|lia].
    assert (expired now (Some (JNumber t)) = Some t) as Hs
      by (by apply expired_Some).
    congruence.
Qed.

Lemma not_active_None now x :
  not_active now x = None ↔ ∀ t, x = Some (JNumber t) → t ≤ now.
Proof.
  destruct (not_active now x) as [t|] eqn:Hx.
  - apply not_active_Some in Hx as [-> Ht]. split; [done|].
    intros H. specialize (H t eq_refl). lia.
  - split; [|done]. intros _ t ->.
    destruct (Z.le_gt_cases t now) as [|Hlt]; [done|].
    assert (not_active now (Some (JNumber t)) = Some t) as Hs
      by (apply not_active_Some; split; [done | lia]).
    congruence.
Qed.

Lemma check_time_object now P :
  check_time now (JObject P) =
  match expired now (P !! "exp") with
  | Some t => Throw (TokenExpiredError (new_Date (t * 1000)))
  | None =>
      match not_active now (P !! "nbf") with
      | Some t => Throw (TokenNotActiveError (new_Date (t * 1000)))
      | None => Normal (JObject P)
      end
  end.
Proof. done. Qed.

Lemma check_time_alive now P :
  alive now P → check_time now (JObject P) = Normal (JObject P).
Proof.
  intros [Hexp Hnbf]. rewrite check_time_object.
  apply expired_None in Hexp. apply not_active_None in Hnbf.
  by rewrite Hexp, Hnbf.
Qed.

Lemma check_time_cases now payload :
  match payload with
  | JNull => check_time now payload = Throw TypeError
  | JObject P =>
      check_time now payload =
      match expired now (P !! "exp") with
      | Some t => Throw (TokenExpiredError (new_Date (t * 1000)))
      | None =>
          match not_active now (P !! "nbf") with
          | Some t => Throw (TokenNotActiveError (new_Date (t * 1000)))
          | None => Normal payload
          end
      end
  | _ => check_time now payload = Normal payload
  end.
Proof. by destruct payload. Qed.


(** Reading [exp] and [nbf] off a value that is neither an object nor
    [null] gives [undefined] twice: the value is returned. *)
Lemma check_time_no_properties now v :
  v ≠ JNull → (∀ P, v ≠ JObject P) → check_time now v = Normal v.
Proof. intros Hnull Hobj. destruct v; try done. by destruct (Hobj fields). Qed.

(** Reading [exp] off [null] throws outside every [try]. *)
Lemma check_time_null now : check_time now JNull = Throw TypeError.
Proof. done. Qed.

Lemma opens_unique keyStore token pt1 pt2 :
  opens keyStore token pt1 → opens keyStore token pt2 → pt1 = pt2.
Proof.
  intros (kid & n & c & key & nonce & ct & Hs & Hk & Hn & Hc & _ & Hd)
         (kid' & n' & c' & key' & nonce' & ct' & Hs' & Hk' & Hn' & Hc' & _ & Hd').
  rewrite Hs in Hs'. injection Hs' as <- <- <-.
  rewrite Hk in Hk'. injection Hk' as <-.
  rewrite Hn in Hn'. injection Hn' as <-.
  rewrite Hc in Hc'. injection Hc' as <-.
  congruence.
Qed.

(** [decrypt] on a token that opens: only the parse and the time checks are
    left. *)
Lemma decrypt_opens keyStore w token plaintext :
  opens keyStore token plaintext →
  decrypt keyStore w token =
  match JSON_parse (TextDecoder_decode plaintext) with
  | None => Throw InvalidSignatureError
  | Some payload => check_time (now_seconds w) payload
  end.
Proof.
  intros (kid & n & c & key & nonce & ct & Hs & Hk & Hn & Hc & Hlen & Hd).
  unfold decrypt. rewrite Hs. simpl.
  rewrite getKey_run, Hk. simpl. rewrite Hn, Hc, Hlen. simpl.
  by rewrite Hd.
Qed.

Lemma decrypt_not_opens keyStore w token :
  (∀ plaintext, ¬ opens keyStore token plaintext) →
  decrypt keyStore w token = Throw InvalidSignatureError.
Proof.
  intros Hno. unfold decrypt.
  destruct (split "." token) as [|s0 [|s1 [|s2 [|s3 [|s4 [|s5 rest]]]]]] eqn:Hs;
    try done. simpl.
  destruct (String.eqb_spec s0 TECTO_PREFIX) as [->|]; [|done].
  destruct (String.eqb_spec s1 TECTO_VERSION) as [->|]; [|done]. simpl.
  rewrite getKey_run. simpl.
  destruct (keys keyStore !! s2) as [key|] eqn:Hk; [|done].
  destruct (base64url_decode s3) as [nonce|] eqn:Hn; [|done].
  destruct (base64url_decode s4) as [ct|] eqn:Hc; [|done].
  destruct (Nat.eqb_spec (length nonce) NONCE_LENGTH) as [Hlen|]; [|done]. simpl.
  destruct (xchacha20poly1305_decrypt _ nonce ct) as [pt|] eqn:Hd; [|done].
  destruct (Hno pt). by exists s2, s3, s4, key, nonce, ct.
Qed.

(** A plaintext that parses to [null] makes [decrypt] throw a [TypeError];
    one that parses to a number, a string, a boolean or an array is
    returned as it is. *)
Lemma decrypt_not_an_object keyStore w token plaintext v :
  opens keyStore token plaintext →
  JSON_parse (TextDecoder_decode plaintext) = Some v →
  (∀ P, v ≠ JObject P) →
  decrypt keyStore w token =
  match v with JNull => Throw TypeError | _ => Normal v end.
Proof.
  intros Hopen Hparse Hobj. rewrite (decrypt_opens _ _ _ _ Hopen), Hparse.
  destruct v; try done. by destruct (Hobj fields).
Qed.

(** Any outcome other than the generic error comes after the open and the
    parse. *)
Lemma decrypt_inv keyStore w token :
  decrypt keyStore w token ≠ Throw InvalidSignatureError →
  ∃ plaintext payload,
    opens keyStore token plaintext ∧
    JSON_parse (TextDecoder_decode plaintext) = Some payload ∧
    decrypt keyStore w token = check_time (now_seconds w) payload.
Proof.
  unfold decrypt.
  destruct (split "." token) as [|s0 [|s1 [|s2 [|s3 [|s4 [|s5 rest]]]]]] eqn:Hs;
    try done. simpl.
  destruct (String.eqb_spec s0 TECTO_PREFIX) as [->|]; [|done].
  destruct (String.eqb_spec s1 TECTO_VERSION) as [->|]; [|done]. simpl.
  rewrite getKey_run. simpl.
  destruct (keys keyStore !! s2) as [key|] eqn:Hk; [|done].
  destruct (base64url_decode s3) as [nonce|] eqn:Hn; [|done].
  destruct (base64url_decode s4) as [ct|] eqn:Hc; [|done].
  destruct (Nat.eqb_spec (length nonce) NONCE_LENGTH) as [Hlen|]; [|done]. simpl.
  destruct (xchacha20poly1305_decrypt _ nonce ct) as [pt|] eqn:Hd; [|done].
  destruct (JSON_parse (TextDecoder_decode pt)) as [payload|] eqn:Hp; [|done].
  intros _. exists pt, payload. split; [|done].
  by exists s2, s3, s4, key, nonce, ct.
Qed.

End DecryptRuns.

(** ** The model on the inputs of the repository's tests *)

Section Tests.
Import Security TectoCoder Examples.

Example rejects_short_key :
  assertEntropy (take 16 K1) = Throw (KeyError (WrongLength 16)).
Proof. reflexivity. Qed.

Example rejects_long_key :
  assertEntropy (K1 ++ K2) = Throw (KeyError (WrongLength 64)).
Proof. reflexivity. Qed.

Example rejects_all_zero_key : assertEntropy (zeros 32) = Throw (KeyError AllZeros).
Proof. reflexivity. Qed.

Example rejects_repeating_key :
  assertEntropy (replicate 32 xaa) = Throw (KeyError RepeatingByte).
Proof. reflexivity. Qed.

Example rejects_low_entropy_key :
  assertEntropy ((λ i, counting (i mod 3)) <$> seq 0 32)
  = Throw (KeyError (InsufficientEntropy 3)).
Proof. vm_compute. reflexivity. Qed.

Example accepts_K1 : assertEntropy K1 = Normal tt.
Proof. vm_compute. reflexivity. Qed.

Example parseDuration_hour : parseDuration "1h" = Normal 3600.
Proof. reflexivity. Qed.

Example parseDuration_spaces_upper_case : parseDuration "15  M" = Normal 900.
Proof. reflexivity. Qed.

Example parseDuration_days : parseDuration "7d" = Normal 604800.
Proof. reflexivity. Qed.

Example parseDuration_no_digits :
  parseDuration "h" = Throw (TectoError_INVALID_DURATION "h").
Proof. reflexivity. Qed.

Example parseDuration_trailing_space :
  parseDuration "1h " = Throw (TectoError_INVALID_DURATION "1h ").
Proof. reflexivity. Qed.

Example parseDuration_two_units :
  parseDuration "1hm" = Throw (TectoError_INVALID_DURATION "1hm").
Proof. reflexivity. Qed.

Example split_empty : split "." "" = [""].
Proof. reflexivity. Qed.

Example split_garbled :
  split "." "not.a.valid.token.at-all" = ["not"; "a"; "valid"; "token"; "at-all"].
Proof. reflexivity. Qed.

Example generateJti_hex :
  fst (generateJti (world counting)) = Normal "000102030405060708090a0b0c0d0e0f".
Proof. vm_compute. reflexivity. Qed.

Example base64url_hello :
  base64url_encode (list_byte_of_string "hello") = "aGVsbG8=" ∧
  base64url_decode "aGVsbG8=" = Some (list_byte_of_string "hello") ∧
  base64url_decode "aGVsbG9=" = None.
Proof. vm_compute. done. Qed.

Example token_k1_prefix :
  String.substring 0 12 token_k1 = "tecto.v1.k1." ∧
  decrypt store_k1 (world counting) "not.a.valid.token.at-all"
    = Throw InvalidSignatureError.
Proof. vm_compute. done. Qed.

End Tests.

(** * The claims *)

Section KeyStoreClaims.
Import MemoryKeyStore.

Lemma run_throw_unchanged c st e : fst (run c st) = Throw e → after c st = st.
Proof.
  unfold after. destruct c as [id secret|id secret|id|id| |]; simpl.
  - rewrite addKey_run. by destruct (Security.assertEntropy secret).
  - rewrite rotate_run. by destruct (Security.assertEntropy secret).
  - rewrite removeKey_run. destruct (keys st !! id); [|done]. by case_decide.
  - by rewrite getKey_run.
  - by rewrite getCurrentKeyId_run.
  - done.
Qed.

Lemma secret_of_is_Some st id :
  consistent st → is_Some (keys st !! id) → is_Some (secret_of st id).
Proof.
  intros Hc [r Hr]. destruct (refs_allocated _ Hc _ _ Hr) as (b & Hb & _).
  unfold secret_of, bytes_at. rewrite Hr. simpl. eauto.
Qed.

(** C7.  [assertEntropy] throws a key-validation [KeyError] exactly when the
    secret is not 32 bytes long, or is all zeros, or repeats one byte, or
    has fewer than 8 distinct byte values; it accepts every 32-byte secret
    with at least 8 distinct values; and the outcome of [addKey] and of
    [rotate] is the outcome of the gate. *)
Theorem entropy_gate (key : list byte) :
  (fails_with (Security.assertEntropy key) KeyInvalid ↔
     length key ≠ 32%nat ∨ Forall (λ b, b = x00) key ∨
     (∃ b, Forall (λ b', b' = b) key) ∨ (distinct_values key < 8)%nat) ∧
  (Security.assertEntropy key = Normal tt ↔
     length key = 32%nat ∧ (8 ≤ distinct_values key)%nat) ∧
  (∀ id st, fst (addKey id key st) = Security.assertEntropy key) ∧
  (∀ id st, fst (rotate id key st) = Security.assertEntropy key).
Proof.
  split; [|split; [apply assertEntropy_Normal|split]].
  - split.
    + intros (m & Hm & _).
      destruct (decide (length key = 32%nat)) as [Hlen|]; [|by left].
      destruct (decide (8 ≤ distinct_values key)%nat) as [Hd|]; [|right; right; right; lia].
      assert (Security.assertEntropy key = Normal tt) as Hok
        by (by apply assertEntropy_Normal).
      congruence.
    + intros Hbad. destruct (assertEntropy_outcome key) as [Hok|]; [|done].
      apply assertEntropy_Normal in Hok as [Hlen Hd].
      destruct Hbad as [?|[Hz|[[b Hb]|?]]]; [done| | |lia].
      * apply distinct_values_constant in Hz. lia.
      * apply distinct_values_constant in Hb. lia.
  - intros id st. rewrite addKey_run.
    by destruct (Security.assertEntropy key) as [[]|].
  - intros id st. rewrite rotate_run.
    by destruct (Security.assertEntropy key) as [[]|].
Qed.

(** C8.  In every state reachable from the empty store the current id, when
    set, names a stored key, and no call removes the key that is current
    when the call is made. *)
Theorem current_key_stored (st : t) (Hreach : reachable st) :
  (∀ id, currentKeyId st = Some id → is_Some (secret_of st id)) ∧
  (∀ c id, currentKeyId st = Some id → is_Some (secret_of (after c st) id)).
Proof.
  pose proof (reachable_consistent _ Hreach) as Hc. split.
  - intros id Hid. apply secret_of_is_Some; [done|].
    by apply (current_stored _ Hc).
  - intros c id Hid.
    pose proof (consistent_after c _ Hc) as Hc'.
    apply secret_of_is_Some; [done|].
    pose proof (current_stored _ Hc _ Hid) as Hstored.
    unfold after. destruct c as [id' secret|id' secret|id'|id'| |]; simpl.
    + rewrite addKey_run. destruct (Security.assertEntropy secret); [|done].
      simpl. rewrite lookup_insert. by case_decide.
    + rewrite rotate_run. destruct (Security.assertEntropy secret); [|done].
      simpl. rewrite lookup_insert. by case_decide.
    + rewrite removeKey_run. destruct (keys st !! id') eqn:Hid'; [|done].
      case_decide as Hcur; [done|]. simpl.
      rewrite lookup_delete_ne by congruence. done.
    + by rewrite getKey_run.
    + by rewrite getCurrentKeyId_run.
    + done.
Qed.

(** [current_key_stored] after a rotation: removing the current key is
    refused and the key stays. *)
Lemma current_key_stored_witness :
  reachable Examples.store_k1_k2 ∧
  is_Some (secret_of (after (RemoveKey "k2") Examples.store_k1_k2) "k2").
Proof.
  assert (Hreach : reachable Examples.store_k1_k2)
    by (do 2 apply reachable_call; apply reachable_empty).
  split; [exact Hreach|].
  apply (proj2 (current_key_stored _ Hreach)). reflexivity.
Defined.

(** C10.  A call on the store that throws leaves the state as it was: the
    map, the buffers and the current id.  [addKey] and [rotate] only throw
    the gate's key-validation error, [removeKey] only not-found or
    in-use. *)
Theorem failing_call_atomic (c : call) (st : t) (e : exn)
    (Hthrow : fst (run c st) = Throw e) :
  after c st = st ∧
  match c with
  | AddKey _ secret | Rotate _ secret =>
      Security.assertEntropy secret = Throw e ∧
      ∃ m, e = KeyError m ∧ kind_of m = KeyInvalid
  | RemoveKey id =>
      (e = KeyError (KeyNotFoundMsg id) ∧ keys st !! id = None) ∨
      (e = KeyError CannotRemoveCurrent ∧ currentKeyId st = Some id)
  | _ => True
  end.
Proof.
  split; [by apply (run_throw_unchanged c st e)|].
  destruct c as [id secret|id secret|id|id| |]; simpl in *; try done.
  - rewrite addKey_run in Hthrow.
    destruct (assertEntropy_outcome secret) as [Hok|(m & Hm & Hk)].
    + by rewrite Hok in Hthrow.
    + rewrite Hm in Hthrow. simpl in Hthrow. injection Hthrow as <-. eauto.
  - rewrite rotate_run in Hthrow.
    destruct (assertEntropy_outcome secret) as [Hok|(m & Hm & Hk)].
    + by rewrite Hok in Hthrow.
    + rewrite Hm in Hthrow. simpl in Hthrow. injection Hthrow as <-. eauto.
  - rewrite removeKey_run in Hthrow. destruct (keys st !! id); simpl in *.
    + case_decide; [|done]. injection Hthrow as <-. by right.
    + injection Hthrow as <-. by left.
Qed.

(** [failing_call_atomic] on a rotation to an all-zero key. *)
Lemma failing_call_atomic_witness :
  fst (run (Rotate "k3" (zeros 32)) Examples.store_k1_k2) = Throw (KeyError AllZeros) ∧
  after (Rotate "k3" (zeros 32)) Examples.store_k1_k2 = Examples.store_k1_k2.
Proof.
  assert (H : fst (run (Rotate "k3" (zeros 32)) Examples.store_k1_k2)
              = Throw (KeyError AllZeros)) by (vm_compute; reflexivity).
  split; [exact H|]. exact (proj1 (failing_call_atomic _ _ _ H)).
Defined.

(** C6.  [removeKey] throws not-found for an id that is not stored and
    in-use for the current id, the store unchanged; once the store has
    rotated to another id, removing the former current id succeeds: the
    buffer is filled with zeros while still in the map, then the entry is
    deleted, and [getKey] on that id throws not-found. *)
Theorem removeKey_guard (st : t) (Hreach : reachable st) :
  (∀ id, keys st !! id = None →
     removeKey id st = (Throw (KeyError (KeyNotFoundMsg id)), st)) ∧
  (∀ id, currentKeyId st = Some id →
     removeKey id st = (Throw (KeyError CannotRemoveCurrent), st)) ∧
  (∀ old newId newSecret,
     currentKeyId st = Some old → newId ≠ old →
     fst (rotate newId newSecret st) = Normal tt →
     let st1 := snd (rotate newId newSecret st) in
     ∃ key secret,
       fst (getKey old st1) = Normal key ∧
       bytes_at st1 key = Some secret ∧ secret_of st old = Some secret ∧
       removeKey old st1 = (Normal tt, deleted old (wiped key st1)) ∧
       keys (wiped key st1) !! old = Some key ∧
       bytes_at (wiped key st1) key = Some (zeros 32) ∧
       bytes_at (snd (removeKey old st1)) key = Some (zeros 32) ∧
       fst (getKey old (snd (removeKey old st1)))
         = Throw (KeyError (KeyNotFoundMsg old))).
Proof.
  pose proof (reachable_consistent _ Hreach) as Hc.
  split; [|split].
  - intros id Hid. by rewrite removeKey_run, Hid.
  - intros id Hid. rewrite removeKey_run.
    destruct (current_stored _ Hc _ Hid) as [r ->]. by rewrite decide_True.
  - intros old newId newSecret Hold Hne Hrot st1. subst st1.
    rewrite rotate_run in *.
    destruct (Security.assertEntropy newSecret) as [[]|] eqn:Hgate; [|done].
    destruct (current_stored _ Hc _ Hold) as [r Hr].
    destruct (refs_allocated _ Hc _ _ Hr) as (secret & Hsecret & Hlen).
    pose proof (fresh_ref_unused st old r Hc Hr) as Hfresh.
    exists r, secret. simpl.
    rewrite getKey_run, removeKey_run. simpl.
    rewrite !lookup_insert_ne by done. rewrite Hr. simpl.
    rewrite decide_False by congruence. simpl.
    rewrite getKey_run. simpl. rewrite lookup_delete_eq.
    unfold bytes_at, secret_of, wiped; simpl.
    rewrite !lookup_insert_ne by done. rewrite Hr; simpl.
    rewrite lookup_alter_eq, lookup_insert_ne by done.
    unfold bytes_at. rewrite Hsecret. simpl.
    unfold fill_0. rewrite Hlen. done.
Qed.

(** [removeKey_guard] on the store of the tests: refused while current,
    done after the rotation. *)
Lemma removeKey_guard_witness :
  reachable Examples.store_k1 ∧
  currentKeyId Examples.store_k1 = Some "k1" ∧
  fst (rotate "k2" Examples.K2 Examples.store_k1) = Normal tt ∧
  removeKey "k1" Examples.store_k1
    = (Throw (KeyError CannotRemoveCurrent), Examples.store_k1) ∧
  fst (removeKey "k1" Examples.store_k1_k2) = Normal tt ∧
  fst (getKey "k1" (snd (removeKey "k1" Examples.store_k1_k2)))
    = Throw (KeyError (KeyNotFoundMsg "k1")).
Proof.
  assert (H1 : reachable Examples.store_k1)
    by (apply reachable_call, reachable_empty).
  assert (H2 : currentKeyId Examples.store_k1 = Some "k1") by reflexivity.
  assert (H3 : fst (rotate "k2" Examples.K2 Examples.store_k1) = Normal tt)
    by (vm_compute; reflexivity).
  do 3 (split; [assumption|]).
  destruct (removeKey_guard _ H1) as (_ & Hcurrent & Hrotated).
  split; [by apply Hcurrent|].
  destruct (Hrotated "k1" "k2" Examples.K2 H2 ltac:(discriminate) H3)
    as (key & secret & _ & _ & _ & Hremove & _ & _ & _ & Hgone).
  split; [|exact Hgone].
  change Examples.store_k1_k2
    with (snd (rotate "k2" Examples.K2 Examples.store_k1)).
  by rewrite Hremove.
Defined.

End KeyStoreClaims.

Section EngineClaims.
Import MemoryKeyStore TectoCoder.
Context `{E : Externals}.

Lemma claims_of_sealed payload options now id exp nbf :
  sealed payload (claims_of payload options now id exp nbf) now id exp nbf
    (truthy (options ≫= issuer)) (truthy (options ≫= audience)).
Proof.
  unfold claims_of, set_claim.
  destruct exp, nbf, (truthy (options ≫= issuer)), (truthy (options ≫= audience));
    simpl; split; intros; rewrite ?not_elem_of_cons in *;
    repeat first [ rewrite lookup_insert_eq | rewrite lookup_insert_ne by naive_solver ];
    done.
Qed.

Lemma length_nonce_of options w : length (nonce_of options w) = 24%nat.
Proof. unfold nonce_of. by rewrite length_fmap, length_seq. Qed.

Lemma bytes_of_added st id secret r :
  r ≠ fresh (dom (heap st)) →
  bytes_of (with_current id (added id secret st)) r = bytes_of st r.
Proof.
  intros Hr. unfold bytes_of, bytes_at. simpl. by rewrite lookup_insert_ne.
Qed.

(** What [encrypt] returns opens under the store it was sealed with, to the
    serialised claims. *)
Lemma encrypt_opens (Hok : ExternalsOk E) st payload options w token w' kid :
  currentKeyId st = Some kid → no_dot kid →
  encrypt st payload options w = (Normal token, w') →
  ∃ exp nbf key ciphertext,
    duration (options ≫= expiresIn) = Normal exp ∧
    duration (options ≫= notBefore) = Normal nbf ∧
    keys st !! kid = Some key ∧
    xchacha20poly1305_encrypt (bytes_of st key) (nonce_of options w)
      (TextEncoder_encode (JSON_stringify
         (JObject (claims_of payload options (now_seconds w) (jti_of options w) exp nbf))))
      = Some ciphertext ∧
    token = frame kid (base64url_encode (nonce_of options w))
                  (base64url_encode ciphertext) ∧
    w' = advance 24 (advance (jti_bytes options) w) ∧
    opens st token
      (TextEncoder_encode (JSON_stringify
         (JObject (claims_of payload options (now_seconds w) (jti_of options w) exp nbf)))).
Proof.
  intros Hkid Hdot. rewrite encrypt_run, Hkid.
  destruct (keys st !! kid) as [key|] eqn:Hkey; [|done]. cbv zeta.
  destruct (duration (options ≫= expiresIn)) as [exp|]; [|done].
  destruct (duration (options ≫= notBefore)) as [nbf|]; [|done].
  destruct (xchacha20poly1305_encrypt _ _ _) as [ct|] eqn:Hct; [|done].
  intros [= <- <-]. exists exp, nbf, key, ct. repeat split; try done.
  exists kid, (base64url_encode (nonce_of options w)), (base64url_encode ct),
    key, (nonce_of options w), ct.
  rewrite split_frame by (done || apply base64url_encode_no_dot).
  rewrite !base64url_decode_encode, length_nonce_of.
  repeat split; [done|]. by apply xchacha20poly1305_decrypt_encrypt.
Qed.

(** C2.  Every failure of [decrypt] before the AEAD open has succeeded ends
    in the one [InvalidSignatureError]: the empty string, a segment count
    other than five, another protocol or version tag, an unknown key id, a
    segment that is not base64url, a nonce that is not 24 bytes, a cipher
    that rejects; so does a plaintext that is not JSON.  An expired or
    not-yet-active error is only thrown for a token that opened and whose
    plaintext parsed. *)
Theorem decrypt_failures_fold (st : t) (w : World) (token : string) :
  (token = "" → decrypt st w token = Throw InvalidSignatureError) ∧
  (length (split "." token) ≠ 5%nat → decrypt st w token = Throw InvalidSignatureError) ∧
  (∀ s0 s1 kid nonceB64 ciphertextB64,
     split "." token = [s0; s1; kid; nonceB64; ciphertextB64] →
     s0 ≠ "tecto" ∨ s1 ≠ "v1" ∨ keys st !! kid = None ∨
     base64url_decode nonceB64 = None ∨ base64url_decode ciphertextB64 = None ∨
     (∃ nonce, base64url_decode nonceB64 = Some nonce ∧ length nonce ≠ 24%nat) ∨
     (∃ key nonce ciphertext,
        keys st !! kid = Some key ∧ base64url_decode nonceB64 = Some nonce ∧
        base64url_decode ciphertextB64 = Some ciphertext ∧
        xchacha20poly1305_decrypt (bytes_of st key) nonce ciphertext = None) →
     decrypt st w token = Throw InvalidSignatureError) ∧
  ((∀ plaintext, ¬ opens st token plaintext) →
     decrypt st w token = Throw InvalidSignatureError) ∧
  (∀ plaintext, opens st token plaintext →
     JSON_parse (TextDecoder_decode plaintext) = None →
     decrypt st w token = Throw InvalidSignatureError) ∧
  (∀ t, decrypt st w token = Throw (TokenExpiredError t) ∨
        decrypt st w token = Throw (TokenNotActiveError t) →
     ∃ plaintext payload,
       opens st token plaintext ∧
       JSON_parse (TextDecoder_decode plaintext) = Some payload).
Proof.
  repeat split.
  - by intros ->.
  - intros Hlen. apply decrypt_not_opens.
    intros pt (kid & n & c & key & nonce & ct & Hs & _). by rewrite Hs in Hlen.
  - intros s0 s1 kid n c Hs Hfail. apply decrypt_not_opens.
    intros pt (kid' & n' & c' & key & nonce & ct & Hs' & Hk & Hn & Hc & Hlen & Hd).
    rewrite Hs in Hs'. injection Hs' as -> -> <- <- <-.
    destruct Hfail as [?|[?|[?|[?|[?|[(nonce' & ? & ?)|(key' & nonce' & ct' & ? & ? & ? & ?)]]]]]];
      try congruence.
  - apply decrypt_not_opens.
  - intros pt Hopen Hparse. by rewrite (decrypt_opens _ _ _ _ Hopen), Hparse.
  - intros t Ht. destruct (decrypt_inv st w token) as (pt & payload & ? & ? & _).
    + destruct Ht as [-> | ->]; done.
    + eauto.
Qed.


(** C3, amended.  The token [encrypt] returns splits on the dot into five
    segments and one more for every dot of the current key id.  When that id
    has no dot, the segments are the protocol tag, the version tag, the key
    id, a base64url text that decodes to the 24 bytes of the nonce, and a
    base64url text that decodes to the output of the cipher. *)
Theorem encrypt_wire_format (Hok : ExternalsOk E) (st : t)
    (payload : gmap string json) (options : option SignOptions)
    (w w' : World) (token kid : string)
    (Hkid : currentKeyId st = Some kid)
    (Henc : encrypt st payload options w = (Normal token, w')) :
  length (split "." token) = (5 + dots kid)%nat ∧
  (no_dot kid →
   ∃ nonceB64 ciphertextB64 nonce key plaintext ciphertext,
     split "." token = ["tecto"; "v1"; kid; nonceB64; ciphertextB64] ∧
     base64url_decode nonceB64 = Some nonce ∧ length nonce = 24%nat ∧
     base64url_decode ciphertextB64 = Some ciphertext ∧
     keys st !! kid = Some key ∧
     xchacha20poly1305_encrypt (bytes_of st key) nonce plaintext = Some ciphertext).
Proof.
  split.
  - rewrite encrypt_run, Hkid in Henc.
    destruct (keys st !! kid); [|done]. cbv zeta in Henc.
    destruct (duration (options ≫= expiresIn)); [|done].
    destruct (duration (options ≫= notBefore)); [|done].
    destruct (xchacha20poly1305_encrypt _ _ _); [|done].
    injection Henc as <- _.
    apply length_split_frame; apply base64url_encode_no_dot.
  - intros Hdot.
    destruct (encrypt_opens Hok _ _ _ _ _ _ _ Hkid Hdot Henc)
      as (exp & nbf & key & ct & _ & _ & Hkey & Hct & -> & _ & _).
    eexists _, _, (nonce_of options w), key, _, ct.
    rewrite split_frame by (done || apply base64url_encode_no_dot).
    rewrite !base64url_decode_encode, length_nonce_of. done.
Qed.

(** C1, amended.  In a reachable store that holds a key and whose current
    id has no dot, with options whose durations parse, and with each
    duration and its sum with the clock value a safe integer (where the
    arithmetic of the code is exact), [encrypt] returns a token; [decrypt]
    of that token, whenever the time claims of the sealed set [P] let it
    through, returns [P]; and [P] is the payload with iat, jti and the
    claims asked for by a non-empty option laid over it,
    exp = iat + duration and nbf = iat + duration.  When the time claims do
    not let it through, [decrypt] throws the expired or the not-yet-active
    error. *)
Theorem roundtrip (Hok : ExternalsOk E) (st : t) (payload : gmap string json)
    (options : option SignOptions) (w : World) (exp nbf : option Z)
    (Hreach : reachable st) (Hkeys : keys st ≠ ∅)
    (Hdot : ∀ kid, currentKeyId st = Some kid → no_dot kid)
    (Hexp : duration (options ≫= expiresIn) = Normal exp)
    (Hnbf : duration (options ≫= notBefore) = Normal nbf)
    (Hexp_safe : ∀ d, exp = Some d →
       safe_integer d ∧ safe_integer (now_seconds w + d))
    (Hnbf_safe : ∀ d, nbf = Some d →
       safe_integer d ∧ safe_integer (now_seconds w + d)) :
  ∃ token w' P,
    encrypt st payload options w = (Normal token, w') ∧
    sealed payload P (now_seconds w) (jti_of options w) exp nbf
      (truthy (options ≫= issuer)) (truthy (options ≫= audience)) ∧
    ∀ w2,
      (alive (now_seconds w2) P → decrypt st w2 token = Normal (JObject P)) ∧
      (¬ alive (now_seconds w2) P →
         ∃ t, decrypt st w2 token = Throw (TokenExpiredError t) ∨
              decrypt st w2 token = Throw (TokenNotActiveError t)).
Proof.
  pose proof (reachable_consistent _ Hreach) as Hc.
  destruct (currentKeyId st) as [kid|] eqn:Hkid;
    [|by destruct Hkeys; apply (current_set _ Hc)].
  destruct (current_stored _ Hc _ Hkid) as [key Hkey].
  destruct (refs_allocated _ Hc _ _ Hkey) as (bytes & Hbytes & Hlen).
  set (P := claims_of payload options (now_seconds w) (jti_of options w) exp nbf).
  destruct (xchacha20poly1305_encrypt_some (bytes_of st key) (nonce_of options w)
              (TextEncoder_encode (JSON_stringify (JObject P)))) as [ct Hct].
  { unfold bytes_of, bytes_at. by rewrite Hbytes. }
  { apply length_nonce_of. }
  assert (Henc : encrypt st payload options w
                 = (Normal (frame kid (base64url_encode (nonce_of options w))
                                  (base64url_encode ct)),
                    advance 24 (advance (jti_bytes options) w))).
  { rewrite encrypt_run, Hkid, Hkey, Hexp, Hnbf. cbv zeta. fold P. by rewrite Hct. }
  eexists _, _, P. split; [exact Henc|]. split; [apply claims_of_sealed|].
  destruct (encrypt_opens Hok _ _ _ _ _ _ _ Hkid (Hdot _ eq_refl) Henc)
    as (exp' & nbf' & _ & _ & Hexp' & Hnbf' & _ & _ & _ & _ & Hopen).
  rewrite Hexp in Hexp'. rewrite Hnbf in Hnbf'.
  injection Hexp' as <-. injection Hnbf' as <-. fold P in Hopen.
  intros w2. rewrite (decrypt_opens _ _ _ _ Hopen).
  rewrite TextDecoder_decode_encode, JSON_parse_stringify. split.
  - apply check_time_alive.
  - intros Hdead. rewrite check_time_object.
    destruct (expired (now_seconds w2) (P !! "exp")) as [t|] eqn:Hx; [eauto|].
    destruct (not_active (now_seconds w2) (P !! "nbf")) as [t|] eqn:Hn; [eauto|].
    destruct Hdead. split; [by apply expired_None | by apply not_active_None].
Qed.

(** C9, amended.  Each call of [encrypt] reads its nonce from the random
    source, 24 bytes after the 16 of a generated jti, and leaves the source
    advanced past them; two calls with the same arguments whose nonces
    differ return different tokens. *)
Theorem distinct_nonces_distinct_tokens (Hok : ExternalsOk E) (st : t)
    (payload : gmap string json) (options : option SignOptions)
    (w1 w1' w2 w2' : World) (token1 token2 : string)
    (Henc1 : encrypt st payload options w1 = (Normal token1, w1'))
    (Henc2 : encrypt st payload options w2 = (Normal token2, w2')) :
  w1' = advance (jti_bytes options + 24) w1 ∧
  (∃ kid ciphertextB64,
     token1 = frame kid (base64url_encode (nonce_of options w1)) ciphertextB64) ∧
  (nonce_of options w1 ≠ nonce_of options w2 → token1 ≠ token2).
Proof.
  rewrite encrypt_run in Henc1, Henc2.
  destruct (currentKeyId st) as [kid|]; [|done].
  destruct (keys st !! kid) as [key|]; [|done]. cbv zeta in *.
  destruct (duration (options ≫= expiresIn)) as [exp|]; [|done].
  destruct (duration (options ≫= notBefore)) as [nbf|]; [|done].
  destruct (xchacha20poly1305_encrypt _ (nonce_of options w1) _) as [ct1|]; [|done].
  destruct (xchacha20poly1305_encrypt _ (nonce_of options w2) _) as [ct2|]; [|done].
  injection Henc1 as <- <-. injection Henc2 as <- <-.
  rewrite advance_advance. repeat split; [eauto|].
  intros Hne Heq. apply Hne.
  apply frame_inj_nonce in Heq; [|apply base64url_encode_no_dot..].
  apply (f_equal base64url_decode) in Heq.
  rewrite !base64url_decode_encode in Heq. congruence.
Qed.

(** C5, amended.  [rotate] is [addKey] followed by making the new id
    current.  When it succeeds on a reachable store, the new secret is
    stored under the new id, the new id is current, every key stored under
    another id keeps its bytes, [decrypt] answers as before on every token
    whose key id is not the new id, and the tokens [encrypt] returns carry
    the new id. *)
Theorem rotate_adds_and_selects (st : t) (newId : string) (newSecret : list byte) :
  rotate newId newSecret st = addKey_then_set_current newId newSecret st ∧
  (reachable st → fst (rotate newId newSecret st) = Normal tt →
   let st' := snd (rotate newId newSecret st) in
   secret_of st' newId = Some newSecret ∧
   currentKeyId st' = Some newId ∧
   (∀ id, id ≠ newId → secret_of st' id = secret_of st id) ∧
   (∀ w token,
      (∀ s0 s1 s3 s4, split "." token ≠ [s0; s1; newId; s3; s4]) →
      decrypt st' w token = decrypt st w token) ∧
   (∀ payload options w token w',
      encrypt st' payload options w = (Normal token, w') →
      ∃ nonceB64 ciphertextB64, token = frame newId nonceB64 ciphertextB64)).
Proof.
  split.
  { unfold addKey_then_set_current. rewrite rotate_run, addKey_run.
    by destruct (Security.assertEntropy newSecret). }
  intros Hreach Hok st'. subst st'. rewrite rotate_run in *.
  pose proof (reachable_consistent _ Hreach) as Hc.
  destruct (Security.assertEntropy newSecret) as [[]|]; [|done]. simpl.
  assert (Hothers : ∀ id, id ≠ newId →
            secret_of (with_current newId (added newId newSecret st)) id
            = secret_of st id).
  { intros id Hid.
    change (secret_of (added newId newSecret st) id = secret_of st id).
    rewrite secret_of_added by done. by rewrite decide_False. }
  split; [|split; [done|split; [done|split]]].
  - change (secret_of (added newId newSecret st) newId = Some newSecret).
    rewrite secret_of_added by done. by rewrite decide_True.
  - intros w token Hkid. unfold decrypt.
    destruct (split "." token) as [|s0 [|s1 [|s2 [|s3 [|s4 [|s5 rest]]]]]] eqn:Hs;
      try done. simpl.
    destruct (negb (s0 =? TECTO_PREFIX)%string || negb (s1 =? TECTO_VERSION)%string);
      [done|].
    rewrite !getKey_run. simpl.
    assert (s2 ≠ newId) as Hne by (intros ->; by apply (Hkid s0 s1 s3 s4)).
    rewrite lookup_insert_ne by done.
    destruct (keys st !! s2) as [key|] eqn:Hkey; [|done].
    change (mk _ _ _) with (with_current newId (added newId newSecret st)).
    by rewrite (bytes_of_added _ _ _ _ (fresh_ref_unused _ _ _ Hc Hkey)).
  - intros payload options w token w'. rewrite encrypt_run. simpl.
    rewrite lookup_insert_eq.
    destruct (duration (options ≫= expiresIn)); [|done].
    destruct (duration (options ≫= notBefore)); [|done].
    destruct (xchacha20poly1305_encrypt _ _ _); [|done].
    intros [= <- _]. eauto.
Qed.

End EngineClaims.

(** ** The claims on concrete inputs, with the reference libraries *)

Section Concrete.
Import MemoryKeyStore TectoCoder Examples.

Lemma reachable_store_k1 : reachable store_k1.
Proof. apply reachable_call, reachable_empty. Qed.

Lemma no_dot_k1 : no_dot "k1".
Proof. unfold no_dot. simpl. set_solver. Qed.

(** C1, as stated, fails: sealed with notBefore of one hour, the token is
    refused when it is decrypted right away. *)
Lemma roundtrip_fails_before_nbf :
  ∃ token w',
    encrypt store_k1 admin not_before_one_hour (world counting) = (Normal token, w') ∧
    decrypt store_k1 w' token
    = Throw (TokenNotActiveError (Date_at 1700003600000)).
Proof.
  eexists _, _. split; [vm_compute; reflexivity|].
  vm_compute. reflexivity.
Qed.

(** [roundtrip] on the example of the specification: [admin] sealed for
    one hour under k1. *)
Lemma roundtrip_witness :
  reachable store_k1 ∧ keys store_k1 ≠ ∅ ∧
  (∀ kid, currentKeyId store_k1 = Some kid → no_dot kid) ∧
  duration (one_hour ≫= expiresIn) = Normal (Some 3600) ∧
  duration (one_hour ≫= notBefore) = Normal None ∧
  (∀ d, Some 3600 = Some d →
     safe_integer d ∧ safe_integer (now_seconds (world counting) + d)) ∧
  ∃ token w' P,
    encrypt store_k1 admin one_hour (world counting) = (Normal token, w') ∧
    P !! "role" = Some (JString "admin") ∧
    P !! "iat" = Some (JNumber 1700000000) ∧
    P !! "exp" = Some (JNumber 1700003600) ∧
    decrypt store_k1 (world counting) token = Normal (JObject P).
Proof.
  assert (H1 : reachable store_k1) by (apply reachable_call, reachable_empty).
  assert (H2 : keys store_k1 ≠ ∅).
  { intros H. apply (f_equal (λ m : gmap string nat, m !! "k1")) in H.
    vm_compute in H. discriminate. }
  assert (H3 : ∀ kid, currentKeyId store_k1 = Some kid → no_dot kid).
  { intros kid H. vm_compute in H. injection H as <-. apply no_dot_k1. }
  assert (H4 : duration (one_hour ≫= expiresIn) = Normal (Some 3600))
    by (vm_compute; reflexivity).
  assert (H5 : duration (one_hour ≫= notBefore) = Normal None)
    by (vm_compute; reflexivity).
  assert (H6 : ∀ d, Some 3600 = Some d →
            safe_integer d ∧ safe_integer (now_seconds (world counting) + d)).
  { intros d [= <-]. unfold safe_integer. vm_compute.
    repeat split; intros H; discriminate H. }
  assert (H7 : ∀ d, @None Z = Some d →
            safe_integer d ∧ safe_integer (now_seconds (world counting) + d))
    by (intros d H; discriminate H).
  do 6 (split; [assumption|]).
  destruct (roundtrip externals_ok store_k1 admin one_hour (world counting)
              _ _ H1 H2 H3 H4 H5 H6 H7) as (token & w' & P & Henc & Hsealed & Hdec).
  exists token, w', P. split; [exact Henc|].
  pose proof (sealed_exp _ _ _ _ _ _ _ _ Hsealed) as Hexp.
  pose proof (sealed_nbf _ _ _ _ _ _ _ _ Hsealed) as Hnbf.
  simpl in Hexp, Hnbf.
  split; [|split; [|split]].
  - rewrite (sealed_other _ _ _ _ _ _ _ _ Hsealed) by set_solver. reflexivity.
  - apply (sealed_iat _ _ _ _ _ _ _ _ Hsealed).
  - exact Hexp.
  - apply (proj1 (Hdec (world counting))). split; intros t Ht.
    + rewrite Hexp in Ht. injection Ht as <-. vm_compute. reflexivity.
    + rewrite Hnbf in Ht. vm_compute in Ht. discriminate.
Defined.

(** [decrypt_failures_fold] on the empty string, four segments and an
    unknown key id. *)
Lemma decrypt_failures_fold_witness :
  decrypt store_k1 (world counting) "" = Throw InvalidSignatureError ∧
  decrypt store_k1 (world counting) "tecto.v1.kid.nonce" = Throw InvalidSignatureError ∧
  decrypt store_k1 (world counting) "tecto.v1.wrong-key.AAAA.AAAA"
    = Throw InvalidSignatureError.
Proof.
  split; [|split].
  - apply (proj1 (decrypt_failures_fold store_k1 (world counting) "")). reflexivity.
  - apply (proj1 (proj2 (decrypt_failures_fold store_k1 (world counting) "tecto.v1.kid.nonce"))).
    vm_compute. discriminate.
  - apply (proj1 (proj2 (proj2 (decrypt_failures_fold store_k1 (world counting)
             "tecto.v1.wrong-key.AAAA.AAAA")))
             "tecto" "v1" "wrong-key" "AAAA" "AAAA"); [reflexivity|].
    right. right. left. reflexivity.
Defined.

(** C3, as stated, fails: [addKey] accepts a key id with a dot, and the
    token sealed under it has six segments; [decrypt] refuses it. *)
Lemma dotted_kid_six_segments :
  fst (addKey "a.b" K1 empty) = Normal tt ∧
  currentKeyId store_dotted = Some "a.b" ∧
  ∃ token w',
    encrypt store_dotted admin one_hour (world counting) = (Normal token, w') ∧
    length (split "." token) = 6%nat ∧
    decrypt store_dotted w' token = Throw InvalidSignatureError.
Proof.
  split; [vm_compute; reflexivity|]. split; [vm_compute; reflexivity|].
  eexists _, _. split; [vm_compute; reflexivity|].
  split; vm_compute; reflexivity.
Qed.

(** [encrypt_wire_format] on the token sealed under k1. *)
Lemma encrypt_wire_format_witness :
  currentKeyId store_k1 = Some "k1" ∧
  encrypt store_k1 admin one_hour (world counting)
    = (Normal token_k1, advance 24 (advance 16 (world counting))) ∧
  length (split "." token_k1) = 5%nat.
Proof.
  assert (H1 : currentKeyId store_k1 = Some "k1") by (vm_compute; reflexivity).
  assert (H2 : encrypt store_k1 admin one_hour (world counting)
               = (Normal token_k1, advance 24 (advance 16 (world counting))))
    by (vm_compute; reflexivity).
  do 2 (split; [assumption|]).
  exact (proj1 (encrypt_wire_format externals_ok _ _ _ _ _ _ _ H1 H2)).
Defined.



(** C5, as stated, fails: rotating to an id that is already stored
    overwrites the bytes stored under it, and the token sealed under the
    previous current key is refused afterwards. *)
Lemma rotate_overwrites_stored_id :
  reachable store_k1 ∧ fst (rotate "k1" K2 store_k1) = Normal tt ∧
  secret_of store_k1 "k1" = Some K1 ∧
  secret_of (snd (rotate "k1" K2 store_k1)) "k1" = Some K2 ∧ K2 ≠ K1 ∧
  decrypt store_k1 (world counting) token_k1 = Normal (JObject claims_k1) ∧
  decrypt (snd (rotate "k1" K2 store_k1)) (world counting) token_k1
    = Throw InvalidSignatureError.
Proof.
  split; [apply reachable_store_k1|].
  split; [vm_compute; reflexivity|].
  split; [vm_compute; reflexivity|].
  split; [vm_compute; reflexivity|].
  split; [intros H; vm_compute in H; discriminate|].
  split; vm_compute; reflexivity.
Qed.

(** [rotate_adds_and_selects] on the rotation from k1 to k2. *)
Lemma rotate_adds_and_selects_witness :
  reachable store_k1 ∧ fst (rotate "k2" K2 store_k1) = Normal tt ∧
  secret_of (snd (rotate "k2" K2 store_k1)) "k1" = Some K1 ∧
  decrypt (snd (rotate "k2" K2 store_k1)) (world counting) token_k1
    = decrypt store_k1 (world counting) token_k1.
Proof.
  assert (H1 : reachable store_k1) by (apply reachable_call, reachable_empty).
  assert (H2 : fst (rotate "k2" K2 store_k1) = Normal tt) by (vm_compute; reflexivity).
  do 2 (split; [assumption|]).
  destruct (proj2 (rotate_adds_and_selects store_k1 "k2" K2) H1 H2)
    as (_ & _ & Hothers & Hdec & _).
  split.
  - rewrite Hothers by discriminate. vm_compute. reflexivity.
  - apply Hdec. intros s0 s1 s3 s4 H. vm_compute in H. discriminate.
Defined.

(** C9, as stated, fails: when the random source gives the same bytes again,
    two calls with the same arguments in the same second return the same
    token. *)
Lemma repeated_bytes_repeat_token :
  ∃ token w' w'',
    encrypt store_k1 admin one_hour (world repeating) = (Normal token, w') ∧
    encrypt store_k1 admin one_hour w' = (Normal token, w'').
Proof.
  eexists _, _, _. split; [vm_compute; reflexivity|].
  vm_compute. reflexivity.
Qed.

(** [distinct_nonces_distinct_tokens] on two calls in a row, the source
    counting on. *)
Lemma distinct_nonces_distinct_tokens_witness :
  encrypt store_k1 admin one_hour (world counting)
    = (Normal token_k1, advance 40 (world counting)) ∧
  encrypt store_k1 admin one_hour (advance 40 (world counting))
    = (Normal token_k1_again, advance 40 (advance 40 (world counting))) ∧
  token_k1 ≠ token_k1_again.
Proof.
  assert (H1 : encrypt store_k1 admin one_hour (world counting)
               = (Normal token_k1, advance 40 (world counting)))
    by (vm_compute; reflexivity).
  assert (H2 : encrypt store_k1 admin one_hour (advance 40 (world counting))
               = (Normal token_k1_again, advance 40 (advance 40 (world counting))))
    by (vm_compute; reflexivity).
  do 2 (split; [assumption|]).
  apply (proj2 (proj2 (distinct_nonces_distinct_tokens externals_ok
                         _ _ _ _ _ _ _ _ _ H1 H2))).
  intros H. vm_compute in H. discriminate.
Defined.

(** [entropy_gate] on an accepted key and on the all-zero key. *)
Lemma entropy_gate_witness :
  Security.assertEntropy K1 = Normal tt ∧
  fails_with (Security.assertEntropy (zeros 32)) KeyInvalid.
Proof.
  split.
  - apply (proj1 (proj2 (entropy_gate K1))). split; [reflexivity|].
    vm_compute. lia.
  - apply (proj1 (entropy_gate (zeros 32))). right. left.
    by apply Forall_replicate.
Defined.

End Concrete.

(** * Further properties of the code *)

(** ** Security primitives *)

Section SecurityMore.
Import Security.

Lemma accumulated_zero (f : nat → N) n :
  foldl (λ diff i, N.lor diff (f i)) 0%N (seq 0 n) = 0%N ↔
  ∀ i, (i < n)%nat → f i = 0%N.
Proof.
  induction n as [|n IH].
  - split; [intros _ i ?; lia | done].
  - rewrite seq_S, foldl_snoc, N.lor_eq_0_iff, IH. simpl. split.
    + intros [Hlt Hn] i Hi. destruct (decide (i = n)) as [->|]; [done|].
      apply Hlt. lia.
    + intros H. split; [intros i Hi|]; apply H; lia.
Qed.

(** X1.  [constantTimeCompare] answers [true] exactly for two arrays with
    the same bytes; arrays of different lengths are never equal. *)
Theorem constantTimeCompare_true (a b : list byte) :
  constantTimeCompare a b = true ↔ a = b.
Proof.
  unfold constantTimeCompare, accumulated_diff.
  destruct (Nat.eqb_spec (length a) (length b)) as [Hlen|Hlen]; simpl.
  - rewrite N.eqb_eq, accumulated_zero. split.
    + intros H. apply list_eq_same_length with (length a); [done..|].
      intros i x y Hi Hx Hy. apply to_N_inj.
      specialize (H i Hi). apply N.lxor_eq in H.
      by rewrite (at_or_0_lookup _ _ _ Hx), (at_or_0_lookup _ _ _ Hy) in H.
    + intros -> i Hi. apply N.lxor_nilpotent.
  - split; [done|]. intros ->. done.
Qed.

End SecurityMore.

Section GeneratedKeys.
Import MemoryKeyStore.

(** X2.  [generateSecureKey] returns the next 32 bytes of the random source
    and leaves the source advanced past them; [addKey] accepts the key
    exactly when those bytes have at least 8 distinct values. *)
Theorem generateSecureKey_run (w : World) :
  ∃ key,
    generateSecureKey w = (Normal key, advance 32 w) ∧
    key = random w <$> seq (drawn w) 32 ∧ length key = 32%nat ∧
    ∀ id st, fst (addKey id key st) = Normal tt ↔ (8 ≤ distinct_values key)%nat.
Proof.
  exists (random w <$> seq (drawn w) 32).
  assert (Hlen : length (random w <$> seq (drawn w) 32) = 32%nat)
    by (by rewrite length_fmap, length_seq).
  split; [apply getRandomValues_run|]. split; [done|]. split; [done|].
  intros id st. rewrite addKey_run.
  destruct (Security.assertEntropy _) as [[]|e] eqn:Hgate.
  - apply assertEntropy_Normal in Hgate. naive_solver.
  - split; [done|]. intros Hd.
    assert (Security.assertEntropy (random w <$> seq (drawn w) 32) = Normal tt) as Hok
      by (by apply assertEntropy_Normal).
    congruence.
Qed.

End GeneratedKeys.

(** ** The key store *)

Section KeyStoreMore.
Import MemoryKeyStore.

Lemma secret_of_removed st id r id' :
  consistent st → keys st !! id = Some r →
  secret_of (deleted id (wiped r st)) id' =
  if decide (id' = id) then None else secret_of st id'.
Proof.
  intros Hc Hr. unfold secret_of, bytes_at, deleted, wiped. simpl.
  rewrite lookup_delete. case_decide as Hid; [by subst; rewrite decide_True|].
  rewrite decide_False by done.
  destruct (keys st !! id') as [r'|] eqn:Hr'; [simpl|done].
  rewrite lookup_alter_ne; [done|]. intros <-.
  by destruct Hid; apply (refs_distinct _ Hc _ _ _ Hr Hr').
Qed.

Lemma gated_after c st : consistent st → gated st → gated (after c st).
Proof.
  intros Hc Hg. unfold after. destruct c as [id secret|id secret|id|id| |]; simpl.
  - rewrite addKey_run.
    destruct (Security.assertEntropy secret) as [[]|] eqn:Hgate; [|done].
    intros id' s. simpl. rewrite secret_of_added by done.
    case_decide; [by intros [= <-] | apply Hg].
  - rewrite rotate_run.
    destruct (Security.assertEntropy secret) as [[]|] eqn:Hgate; [|done].
    intros id' s. simpl.
    change (secret_of (with_current id (added id secret st)) id')
      with (secret_of (added id secret st) id').
    rewrite secret_of_added by done.
    case_decide; [by intros [= <-] | apply Hg].
  - rewrite removeKey_run. destruct (keys st !! id) as [r|] eqn:Hr; [|done].
    case_decide; [done|]. intros id' s. simpl.
    rewrite secret_of_removed by done. case_decide; [done | apply Hg].
  - by rewrite getKey_run.
  - by rewrite getCurrentKeyId_run.
  - done.
Qed.

Lemma reachable_gated st : reachable st → gated st.
Proof.
  induction 1 as [|c st Hreach IH].
  - intros id s. unfold secret_of. simpl. by rewrite lookup_empty.
  - apply gated_after; [by apply reachable_consistent | done].
Qed.

Lemma reachable_after_all calls st : reachable st → reachable (after_all calls st).
Proof.
  revert st. induction calls as [|c calls IH]; intros st Hreach; [done|].
  simpl. apply IH. by constructor.
Qed.

(** X3.  In every reachable state each stored secret is one the entropy
    gate let through: 32 bytes with at least 8 distinct values, so never the
    zeros that [removeKey] writes into the buffer of another id. *)
Theorem stored_keys_gated (st : t) (id : string) (secret : list byte)
    (Hreach : reachable st) (Hid : secret_of st id = Some secret) :
  Security.assertEntropy secret = Normal tt ∧
  length secret = 32%nat ∧ (8 ≤ distinct_values secret)%nat ∧
  secret ≠ zeros 32.
Proof.
  pose proof (reachable_gated _ Hreach _ _ Hid) as Hgate.
  split; [done|]. pose proof Hgate as Hg.
  apply assertEntropy_Normal in Hg as [Hlen Hd]. do 2 (split; [done|]).
  intros ->. by vm_compute in Hgate.
Qed.

(** X4.  A successful [addKey] stores a copy of the secret in a buffer that
    did not exist before, which [getKey] then returns; every other id keeps
    its buffer and its bytes; the current id is the one it was, or the new
    id when there was none. *)
Theorem addKey_getKey (st : t) (id : string) (secret : list byte)
    (Hreach : reachable st) (Hadd : fst (addKey id secret st) = Normal tt) :
  let st' := snd (addKey id secret st) in
  (∃ key, fst (getKey id st') = Normal key ∧
          bytes_at st' key = Some secret ∧ bytes_at st key = None) ∧
  (∀ id', id' ≠ id →
     fst (getKey id' st') = fst (getKey id' st) ∧
     secret_of st' id' = secret_of st id') ∧
  currentKeyId st' = Some (default id (currentKeyId st)).
Proof.
  pose proof (reachable_consistent _ Hreach) as Hc.
  intros st'. subst st'. rewrite addKey_run in *.
  destruct (Security.assertEntropy secret) as [[]|]; [|done]. simpl.
  split; [|split].
  - exists (fresh (dom (heap st))). rewrite getKey_run. simpl.
    rewrite lookup_insert_eq. unfold bytes_at. simpl.
    rewrite lookup_insert_eq. repeat split.
    apply not_elem_of_dom, is_fresh.
  - intros id' Hne. rewrite !getKey_run. simpl.
    rewrite lookup_insert_ne by done. split; [done|].
    rewrite secret_of_added by done. by rewrite decide_False.
  - by destruct (currentKeyId st).
Qed.

(** X5.  [size] counts the stored ids: a successful [addKey] or [rotate]
    adds one when the id is new and none when it overwrites a stored id, a
    successful [removeKey] takes one away, and nothing else changes the
    count. *)
Theorem size_after (c : call) (st : t) :
  ∃ n, size st = (Normal n, st) ∧
    size (after c st) =
    (Normal match c, fst (run c st) with
            | (AddKey id _ | Rotate id _), Normal _ =>
                match fst (getKey id st) with Normal _ => n | Throw _ => S n end
            | RemoveKey _, Normal _ => pred n
            | _, _ => n
            end,
     after c st).
Proof.
  exists (stdpp.base.size (keys st)). split; [done|].
  unfold size, js_get. f_equal. f_equal.
  unfold after. destruct c as [id secret|id secret|id|id| |]; simpl.
  - rewrite addKey_run, getKey_run.
    destruct (Security.assertEntropy secret); [simpl|done].
    destruct (keys st !! id) eqn:Hid; simpl.
    + apply map_size_insert_Some. eauto.
    + by apply map_size_insert_None.
  - rewrite rotate_run, getKey_run.
    destruct (Security.assertEntropy secret); [simpl|done].
    destruct (keys st !! id) eqn:Hid; simpl.
    + apply map_size_insert_Some. eauto.
    + by apply map_size_insert_None.
  - rewrite removeKey_run. destruct (keys st !! id) as [r|] eqn:Hr; [|done].
    case_decide; [done|]. simpl. apply map_size_delete_Some. eauto.
  - by rewrite getKey_run; destruct (keys st !! id).
  - by rewrite getCurrentKeyId_run; destruct (currentKeyId st).
  - done.
Qed.

(** X6.  A reachable store has a current key exactly when it holds a key,
    and once it has one it has one after every call: [getCurrentKeyId]
    throws only before the first successful [addKey] or [rotate], and the
    last key of a store cannot be removed. *)
Theorem current_key_forever (st : t) (Hreach : reachable st) :
  (fst (getCurrentKeyId st) = Throw (KeyError NoKeysInStore) ↔
     fst (size st) = Normal 0%nat) ∧
  (∀ calls, fst (size st) ≠ Normal 0%nat →
     ∃ id, fst (getCurrentKeyId (after_all calls st)) = Normal id ∧
           is_Some (secret_of (after_all calls st) id) ∧
           fst (size (after_all calls st)) ≠ Normal 0%nat).
Proof.
  assert (Hsize : ∀ st, fst (size st) = Normal 0%nat ↔
                        stdpp.base.size (keys st) = 0%nat).
  { intros st0. unfold size, js_get. simpl. naive_solver. }
  assert (Hiff : ∀ st, reachable st →
            currentKeyId st = None ↔ stdpp.base.size (keys st) = 0%nat).
  { intros st0 Hr. pose proof (reachable_consistent _ Hr) as Hc.
    rewrite map_size_empty_iff. split; [apply (current_set _ Hc)|].
    intros Hempty. destruct (currentKeyId st0) as [id|] eqn:Hcur; [|done].
    destruct (current_stored _ Hc _ Hcur) as [r Hr'].
    rewrite Hempty in Hr'. by rewrite lookup_empty in Hr'. }
  split.
  - rewrite Hsize, <-(Hiff _ Hreach), getCurrentKeyId_run.
    by destruct (currentKeyId st).
  - intros calls. revert st Hreach.
    induction calls as [|c calls IH]; intros st Hreach Hne.
    + simpl. rewrite getCurrentKeyId_run.
      destruct (currentKeyId st) as [id|] eqn:Hcur.
      * exists id. split; [done|]. split; [|done].
        pose proof (reachable_consistent _ Hreach) as Hc.
        apply secret_of_is_Some; [done|]. by apply (current_stored _ Hc).
      * by apply (Hiff _ Hreach), Hsize in Hcur.
    + simpl. apply IH; [by constructor|].
      pose proof (reachable_consistent _ Hreach) as Hc.
      destruct (currentKeyId st) as [cur|] eqn:Hcur;
        [|by apply (Hiff _ Hreach), Hsize in Hcur].
      rewrite Hsize, map_size_ne_0_lookup.
      exists cur. destruct (current_stored _ Hc _ Hcur) as [r Hr].
      unfold after. destruct c as [id secret|id secret|id|id| |]; simpl.
      * rewrite addKey_run. destruct (Security.assertEntropy secret); [|eauto].
        simpl. rewrite lookup_insert. case_decide; eauto.
      * rewrite rotate_run. destruct (Security.assertEntropy secret); [|eauto].
        simpl. rewrite lookup_insert. case_decide; eauto.
      * rewrite removeKey_run. destruct (keys st !! id) eqn:Hid; [|eauto].
        case_decide as Hne'; [eauto|]. simpl.
        rewrite lookup_delete_ne by congruence. eauto.
      * rewrite getKey_run. eauto.
      * rewrite getCurrentKeyId_run. eauto.
      * eauto.
Qed.

End KeyStoreMore.

Section Buffers.
Import MemoryKeyStore.

Lemma fresh_not_allocated st r : is_Some (heap st !! r) → r ≠ fresh (dom (heap st)).
Proof. intros Hr ->. by apply (is_fresh (dom (heap st))), elem_of_dom. Qed.

Lemma orphan_after c r st b :
  orphan r st → bytes_at st r = Some b →
  orphan r (after c st) ∧ bytes_at (after c st) r = Some b.
Proof.
  intros [Hr Hno] Hb. pose proof (fresh_not_allocated _ _ Hr) as Hfresh.
  unfold after, orphan, bytes_at in *.
  destruct c as [id secret|id secret|id|id| |]; simpl.
  - rewrite addKey_run. destruct (Security.assertEntropy secret); [simpl|done].
    rewrite lookup_insert_ne by done. repeat split; [done| |done].
    intros id'. rewrite lookup_insert. case_decide; [congruence | apply Hno].
  - rewrite rotate_run. destruct (Security.assertEntropy secret); [simpl|done].
    rewrite lookup_insert_ne by done. repeat split; [done| |done].
    intros id'. rewrite lookup_insert. case_decide; [congruence | apply Hno].
  - rewrite removeKey_run. destruct (keys st !! id) as [r'|] eqn:Hr'; [|done].
    case_decide; [done|]. simpl.
    assert (r' ≠ r) by (intros ->; by apply (Hno id)).
    rewrite lookup_alter_ne by done. repeat split; [done| |done].
    intros id'. rewrite lookup_delete. case_decide; [done | apply Hno].
  - by rewrite getKey_run.
  - by rewrite getCurrentKeyId_run.
  - done.
Qed.

(** X7.  A call never rewrites a buffer that exists, with one exception: a
    successful [removeKey] fills the buffer of the removed id with zeros.
    So the bytes behind a reference that [getKey] returned stay what they
    were until that id is removed. *)
Theorem buffers_only_wiped (c : call) (st : t) (r : nat) (bytes : list byte)
    (Hr : bytes_at st r = Some bytes) :
  bytes_at (after c st) r = Some bytes ∨
  ∃ id, c = RemoveKey id ∧ keys st !! id = Some r ∧
        fst (run c st) = Normal tt ∧
        bytes_at (after c st) r = Some (zeros (length bytes)).
Proof.
  assert (Hfresh : r ≠ fresh (dom (heap st))) by (apply fresh_not_allocated; eauto).
  unfold after, bytes_at in *.
  destruct c as [id secret|id secret|id|id| |]; simpl.
  - left. rewrite addKey_run. destruct (Security.assertEntropy secret); [simpl|done].
    by rewrite lookup_insert_ne.
  - left. rewrite rotate_run. destruct (Security.assertEntropy secret); [simpl|done].
    by rewrite lookup_insert_ne.
  - rewrite removeKey_run. destruct (keys st !! id) as [r'|] eqn:Hr'; [|by left].
    case_decide; [by left|]. simpl.
    destruct (decide (r' = r)) as [->|Hne].
    + right. exists id. rewrite lookup_alter_eq, Hr. done.
    + left. by rewrite lookup_alter_ne.
  - left. by rewrite getKey_run.
  - left. by rewrite getCurrentKeyId_run.
  - by left.
Qed.

(** X8.  Only [removeKey] wipes.  When [addKey] or [rotate] overwrites a
    stored id, the buffer that held the old secret is dropped from the map
    with its bytes intact, and no later call ever changes them. *)
Theorem overwritten_secret_never_wiped (st : t) (c : call) (r : nat)
    (bytes : list byte) (calls : list call)
    (Hreach : reachable st)
    (Hid : ∃ id secret, (c = AddKey id secret ∨ c = Rotate id secret) ∧
                        keys st !! id = Some r)
    (Hbytes : bytes_at st r = Some bytes)
    (Hok : fst (run c st) = Normal tt) :
  (∀ id, fst (getKey id (after c st)) ≠ Normal r) ∧
  bytes_at (after_all calls (after c st)) r = Some bytes.
Proof.
  pose proof (reachable_consistent _ Hreach) as Hc.
  assert (Horphan : orphan r (after c st) ∧ bytes_at (after c st) r = Some bytes).
  { destruct Hid as (id & secret & Hcall & Hr).
    pose proof (fresh_ref_unused _ _ _ Hc Hr) as Hfresh.
    assert (Hstate : after c st = added id secret st ∨
                     after c st = with_current id (added id secret st)).
    { unfold after. destruct Hcall as [-> | ->]; simpl in *.
      - rewrite addKey_run in *. destruct (Security.assertEntropy secret); [|done].
        by left.
      - rewrite rotate_run in *. destruct (Security.assertEntropy secret); [|done].
        by right. }
    unfold orphan, bytes_at in *.
    destruct Hstate as [-> | ->]; simpl; rewrite lookup_insert_ne by done.
    all: repeat split; [eauto| |done].
    all: intros id'; rewrite lookup_insert; case_decide; [congruence|].
    all: intros Hr'; by pose proof (refs_distinct _ Hc _ _ _ Hr Hr'). }
  destruct Horphan as [Horphan Hkept]. split.
  - intros id. rewrite getKey_run. simpl.
    destruct (keys (after c st) !! id) eqn:Hk; [|done].
    intros [= ->]. by apply (proj2 Horphan id).
  - clear Hok Hid Hbytes Hreach Hc. revert Horphan Hkept.
    generalize (after c st). clear st.
    induction calls as [|c' calls IH]; intros st Horphan Hkept; [done|].
    simpl. destruct (orphan_after c' _ _ _ Horphan Hkept). by apply IH.
Qed.

(** X9.  A successful [removeKey] changes nothing but the removed entry:
    the current id is the same, [getKey] on the removed id throws not-found,
    and every other id keeps its buffer and its bytes. *)
Theorem removeKey_frame (st : t) (id : string)
    (Hreach : reachable st) (Hok : fst (removeKey id st) = Normal tt) :
  let st' := snd (removeKey id st) in
  currentKeyId st' = currentKeyId st ∧ currentKeyId st ≠ Some id ∧
  fst (getKey id st') = Throw (KeyError (KeyNotFoundMsg id)) ∧
  ∀ id', id' ≠ id →
    fst (getKey id' st') = fst (getKey id' st) ∧
    secret_of st' id' = secret_of st id'.
Proof.
  pose proof (reachable_consistent _ Hreach) as Hc.
  intros st'. subst st'. rewrite removeKey_run in *.
  destruct (keys st !! id) as [r|] eqn:Hr; [|done].
  case_decide as Hcur; [done|]. simpl.
  split; [done|]. split; [done|]. rewrite getKey_run. simpl.
  rewrite lookup_delete_eq. split; [done|].
  intros id' Hne. rewrite !getKey_run. simpl.
  rewrite lookup_delete_ne by done. split; [done|].
  rewrite secret_of_removed by done. by rewrite decide_False.
Qed.

End Buffers.

Section Durations.
Import TectoCoder.

Lemma parseDuration_throw d e :
  parseDuration d = Throw e → e = TectoError_INVALID_DURATION d.
Proof.
  unfold parseDuration.
  destruct (span is_digit d) as [digits rest].
  destruct (span is_space rest) as [spaces rest'].
  destruct digits; [congruence|].
  destruct rest' as [|unit [|]]; [congruence| |congruence].
  destruct (multiplier unit); congruence.
Qed.

Lemma span_spec p s taken left :
  span p s = (taken, left) →
  s = taken ++ left ∧ all_chars p taken ∧
  match left with String c _ => p c = false | EmptyString => True end.
Proof.
  revert taken left. induction s as [|c s IH]; intros taken left; simpl.
  - intros [= <- <-]. repeat split. constructor.
  - destruct (p c) eqn:Hc.
    + destruct (span p s) as [taken' left'] eqn:Hs. intros [= <- <-].
      destruct (IH _ _ eq_refl) as (-> & Hall & Hleft).
      repeat split; [by constructor | done].
    + intros [= <- <-]. repeat split; [constructor | done].
Qed.

Lemma span_app p taken left :
  all_chars p taken →
  match left with String c _ => p c = false | EmptyString => True end →
  span p (taken ++ left) = (taken, left).
Proof.
  intros Hall Hleft. induction taken as [|c taken IH].
  - destruct left as [|c left]; [done|]. simpl. by rewrite Hleft.
  - apply Forall_cons_1 in Hall as [Hc Hall].
    change (String c taken ++ left) with (String c (taken ++ left)).
    simpl. by rewrite Hc, IH.
Qed.

Lemma multiplier_unit unit m :
  multiplier unit = Some m → is_digit unit = false ∧ is_space unit = false ∧ 0 < m.
Proof.
  destruct unit as [[] [] [] [] [] [] [] []]; simpl; intros [= <-]; done.
Qed.

Lemma is_space_not_digit c : is_space c = true → is_digit c = false.
Proof. by destruct c as [[] [] [] [] [] [] [] []]. Qed.

Lemma is_digit_code c : is_digit c = true → 0 ≤ Z.of_N (code c) - 48 ≤ 9.
Proof. unfold is_digit. intros [?%N.leb_le ?%N.leb_le]%andb_true_iff. lia. Qed.

Lemma parseInt_nonneg digits : all_chars is_digit digits → 0 ≤ parseInt digits.
Proof.
  unfold parseInt, all_chars. intros Hall.
  assert (∀ acc, 0 ≤ acc →
    0 ≤ fold_left (λ acc c, acc * 10 + (Z.of_N (code c) - 48))
                  (list_ascii_of_string digits) acc) as H.
  { induction Hall as [|c l Hc Hall IH]; intros acc Hacc; [done|].
    simpl. apply IH. apply is_digit_code in Hc. lia. }
  by apply H.
Qed.

(** X10.  [parseDuration] returns exactly on the strings made of one or
    more decimal digits, any number of white-space characters and one unit
    letter among s, m, h, d in either case, and nothing after it.  When the
    number the digits write times the seconds of the unit is a safe integer,
    that product is the value returned; the value is never negative.  Every
    other string is refused with the invalid-duration error that carries
    the string. *)
Theorem parseDuration_grammar (d : string) :
  ((∃ n, parseDuration d = Normal n) ↔
     ∃ digits spaces unit,
       d = digits ++ spaces ++ String unit "" ∧ digits ≠ "" ∧
       all_chars is_digit digits ∧ all_chars is_space spaces ∧
       is_Some (multiplier unit)) ∧
  (∀ digits spaces unit m,
     d = digits ++ spaces ++ String unit "" → digits ≠ "" →
     all_chars is_digit digits → all_chars is_space spaces →
     multiplier unit = Some m →
     safe_integer (parseInt digits * m) →
     parseDuration d = Normal (parseInt digits * m)) ∧
  (∀ n, parseDuration d = Normal n → 0 ≤ n) ∧
  (∀ e, parseDuration d = Throw e → e = TectoError_INVALID_DURATION d).
Proof.
  assert (Hparse : ∀ n, parseDuration d = Normal n →
     ∃ digits spaces unit m,
       d = digits ++ spaces ++ String unit "" ∧ digits ≠ "" ∧
       all_chars is_digit digits ∧ all_chars is_space spaces ∧
       multiplier unit = Some m ∧ n = parseInt digits * m).
  { intros n. unfold parseDuration.
    destruct (span is_digit d) as [digits rest] eqn:Hd.
    destruct (span is_space rest) as [spaces rest'] eqn:Hs.
    apply span_spec in Hd as (-> & Hdigits & _).
    apply span_spec in Hs as (-> & Hspaces & _).
    destruct digits as [|c digits]; [done|].
    destruct rest' as [|unit [|]]; [done| |done].
    destruct (multiplier unit) as [m|] eqn:Hm; [|done].
    intros [= <-]. by exists (String c digits), spaces, unit, m. }
  assert (Hvalue : ∀ digits spaces unit m,
     d = digits ++ spaces ++ String unit "" → digits ≠ "" →
     all_chars is_digit digits → all_chars is_space spaces →
     multiplier unit = Some m →
     parseDuration d = Normal (parseInt digits * m)).
  { intros digits spaces unit m -> Hne Hdigits Hspaces Hm.
    destruct (multiplier_unit _ _ Hm) as (Hnd & Hns & _).
    unfold parseDuration. rewrite (span_app _ _ _ Hdigits).
    - rewrite (span_app _ _ _ Hspaces) by done.
      destruct digits; [done|]. by rewrite Hm.
    - destruct spaces as [|c spaces]; [done|].
      apply Forall_cons_1 in Hspaces as [Hc _]. by apply is_space_not_digit. }
  split; [|split; [|split]].
  - split.
    + intros [n (digits & spaces & unit & m & ? & ? & ? & ? & ? & _)%Hparse].
      exists digits, spaces, unit. eauto 10.
    + intros (digits & spaces & unit & Hd & ? & ? & ? & [m Hm]). eauto.
  - intros digits spaces unit m ? ? ? ? ? _. eauto.
  - intros n (digits & spaces & unit & m & _ & _ & Hdigits & _ & Hm & ->)%Hparse.
    destruct (multiplier_unit _ _ Hm) as (_ & _ & Hpos).
    pose proof (parseInt_nonneg _ Hdigits). lia.
  - apply parseDuration_throw.
Qed.

End Durations.

Section Jti.
Import TectoCoder.

Lemma hex_value_hex_digit n : (n < 16)%N → hex_value (hex_digit n) = n.
Proof.
  intros Hn. assert (Hcases : n ∈ (N.of_nat <$> seq 0 16)).
  { apply list_elem_of_fmap. exists (N.to_nat n). split; [lia|].
    apply elem_of_seq. lia. }
  simpl in Hcases. set_unfold in Hcases.
  repeat (destruct Hcases as [->|Hcases]; [reflexivity|]). done.
Qed.

Lemma is_lower_hex_hex_digit n : (n < 16)%N → is_lower_hex (hex_digit n) = true.
Proof.
  intros Hn. assert (Hcases : n ∈ (N.of_nat <$> seq 0 16)).
  { apply list_elem_of_fmap. exists (N.to_nat n). split; [lia|].
    apply elem_of_seq. lia. }
  simpl in Hcases. set_unfold in Hcases.
  repeat (destruct Hcases as [->|Hcases]; [reflexivity|]). done.
Qed.

Lemma to_N_lt_256 b : (Byte.to_N b < 256)%N.
Proof. pose proof (Byte.to_N_bounded b). lia. Qed.

Lemma hex2_inj b1 b2 : hex2 b1 = hex2 b2 → b1 = b2.
Proof.
  unfold hex2. intros [= Hq Hr].
  pose proof (to_N_lt_256 b1). pose proof (to_N_lt_256 b2).
  apply (f_equal hex_value) in Hq, Hr.
  rewrite !hex_value_hex_digit in Hq, Hr by lia.
  apply to_N_inj. lia.
Qed.

Lemma concat_hex2_cons b bytes :
  String.concat "" (hex2 <$> b :: bytes) =
  String (hex_digit (Byte.to_N b / 16))
    (String (hex_digit (Byte.to_N b mod 16)) (String.concat "" (hex2 <$> bytes))).
Proof. by destruct bytes. Qed.

Lemma concat_hex2_inj bytes1 bytes2 :
  length bytes1 = length bytes2 →
  String.concat "" (hex2 <$> bytes1) = String.concat "" (hex2 <$> bytes2) →
  bytes1 = bytes2.
Proof.
  revert bytes2. induction bytes1 as [|b1 bytes1 IH]; intros [|b2 bytes2]; try done.
  intros [= Hlen]. rewrite !concat_hex2_cons. intros [= Hq Hr Hrest].
  f_equal; [|by apply IH]. apply hex2_inj. unfold hex2. by rewrite Hq, Hr.
Qed.

Lemma concat_hex2_format bytes :
  String.length (String.concat "" (hex2 <$> bytes)) = (2 * length bytes)%nat ∧
  all_chars is_lower_hex (String.concat "" (hex2 <$> bytes)).
Proof.
  induction bytes as [|b bytes [IHlen IHall]]; [by split; [|constructor]|].
  rewrite concat_hex2_cons. pose proof (to_N_lt_256 b). split.
  - simpl String.length. rewrite IHlen. simpl. lia.
  - repeat constructor; [apply is_lower_hex_hex_digit; lia ..|done].
Qed.

(** X11.  [generateJti] reads 16 bytes from the random source and returns
    32 characters, all among 0-9 and a-f, two for each byte; two calls
    return the same identifier only when they read the same 16 bytes. *)
Theorem generateJti_format (w : World) :
  ∃ id, generateJti w = (Normal id, advance 16 w) ∧
    String.length id = 32%nat ∧ all_chars is_lower_hex id ∧
    ∀ w', fst (generateJti w') = Normal id →
      random w' <$> seq (drawn w') 16 = random w <$> seq (drawn w) 16.
Proof.
  assert (Hrun : ∀ w, generateJti w =
    (Normal (String.concat "" (hex2 <$> (random w <$> seq (drawn w) 16))),
     advance 16 w)).
  { intros w0. unfold generateJti, js_bind. by rewrite getRandomValues_run. }
  eexists. split; [apply Hrun|].
  destruct (concat_hex2_format (random w <$> seq (drawn w) 16)) as [Hlen Hall].
  split; [|split; [done|]].
  - rewrite Hlen. by rewrite length_fmap, length_seq.
  - intros w'. rewrite Hrun. cbn [fst]. intros Heq.
    apply concat_hex2_inj; [by rewrite !length_fmap, !length_seq | congruence].
Qed.

End Jti.

Section EngineMore.
Import MemoryKeyStore TectoCoder.
Context `{E : Externals}.

Lemma duration_throw field e :
  duration field = Throw e →
  ∃ d, field = Some d ∧ d ≠ "" ∧ e = TectoError_INVALID_DURATION d ∧
       parseDuration d = Throw e.
Proof.
  unfold duration, truthy. destruct field as [[|c d]|]; try done.
  destruct (parseDuration (String c d)) as [n|e'] eqn:Hd; [done|].
  intros [= <-]. pose proof (parseDuration_throw _ _ Hd) as ->.
  by exists (String c d).
Qed.

(** X12.  In a store reached by calls, with libraries that keep their
    contracts, [encrypt] throws in three cases only.  On a store without
    keys it throws the no-keys error and reads nothing from the random
    source.  Otherwise it throws the invalid-duration error for
    [expiresIn] when that is non-empty and not a duration, and else for
    [notBefore] likewise, after the bytes of a generated jti were read.  It
    never throws key-not-found, and the cipher never refuses the stored
    key: with durations that parse it returns a token that carries the
    current key id, having read the jti's bytes and the 24 of the nonce. *)
Theorem encrypt_outcome (Hok : ExternalsOk E) (st : t) (payload : gmap string json)
    (options : option SignOptions) (w : World) (Hreach : reachable st) :
  match currentKeyId st with
  | None =>
      keys st = ∅ ∧
      encrypt st payload options w = (Throw (KeyError NoKeysInStore), w)
  | Some kid =>
      match duration (options ≫= expiresIn), duration (options ≫= notBefore) with
      | Throw e, _ =>
          (∃ d, options ≫= expiresIn = Some d ∧ e = TectoError_INVALID_DURATION d) ∧
          encrypt st payload options w = (Throw e, advance (jti_bytes options) w)
      | Normal _, Throw e =>
          (∃ d, options ≫= notBefore = Some d ∧ e = TectoError_INVALID_DURATION d) ∧
          encrypt st payload options w = (Throw e, advance (jti_bytes options) w)
      | Normal _, Normal _ =>
          ∃ nonceB64 ciphertextB64,
            encrypt st payload options w =
            (Normal (frame kid nonceB64 ciphertextB64),
             advance (jti_bytes options + 24) w)
      end
  end.
Proof.
  pose proof (reachable_consistent _ Hreach) as Hc. rewrite encrypt_run.
  destruct (currentKeyId st) as [kid|] eqn:Hkid;
    [|by split; [apply (current_set _ Hc)|]].
  destruct (current_stored _ Hc _ Hkid) as [key Hkey]. rewrite Hkey. cbv zeta.
  destruct (refs_allocated _ Hc _ _ Hkey) as (bytes & Hbytes & Hlen).
  destruct (duration (options ≫= expiresIn)) as [exp|e] eqn:Hexp.
  - destruct (duration (options ≫= notBefore)) as [nbf|e] eqn:Hnbf.
    + destruct (xchacha20poly1305_encrypt_some (bytes_of st key) (nonce_of options w)
        (TextEncoder_encode (JSON_stringify (JObject
           (claims_of payload options (now_seconds w) (jti_of options w) exp nbf)))))
        as [ct Hct].
      { unfold bytes_of, bytes_at. by rewrite Hbytes. }
      { unfold nonce_of. by rewrite length_fmap, length_seq. }
      rewrite Hct, advance_advance. eauto.
    + apply duration_throw in Hnbf as (d & ? & _ & ? & _). eauto.
  - apply duration_throw in Hexp as (d & ? & _ & ? & _). eauto.
Qed.

Lemma generic_or_not {A} (c : completion A) :
  c = Throw InvalidSignatureError ∨ c ≠ Throw InvalidSignatureError.
Proof. destruct c as [|[]]; (by left) || (by right). Qed.

(** X13.  [decrypt] throws nothing but the generic invalid-signature error,
    the expired error, the not-active error and, for an authenticated
    plaintext that is the JSON text null, a [TypeError].  The expired error
    is thrown for an authenticated object whose [exp] is not after the
    clock, the not-active error for one whose [nbf] is after it.  An unknown
    key id never shows as a key error. *)
Theorem decrypt_throws_only (st : t) (w : World) (token : string) (e : exn)
    (Hthrow : decrypt st w token = Throw e) :
  e = InvalidSignatureError ∨
  (∃ expiredAt plaintext P t,
     e = TokenExpiredError expiredAt ∧ opens st token plaintext ∧
     JSON_parse (TextDecoder_decode plaintext) = Some (JObject P) ∧
     P !! "exp" = Some (JNumber t) ∧ t ≤ now_seconds w) ∨
  (∃ activeAt plaintext P t,
     e = TokenNotActiveError activeAt ∧ opens st token plaintext ∧
     JSON_parse (TextDecoder_decode plaintext) = Some (JObject P) ∧
     P !! "nbf" = Some (JNumber t) ∧ now_seconds w < t) ∨
  (e = TypeError ∧
   ∃ plaintext, opens st token plaintext ∧
                JSON_parse (TextDecoder_decode plaintext) = Some JNull).
Proof.
  destruct (generic_or_not (decrypt st w token)) as [Heq|Hne];
    [left; congruence|]. right.
  destruct (decrypt_inv st w token) as (pt & payload & Hopen & Hparse & Hdec);
    [done|].
  rewrite Hdec in Hthrow. pose proof (check_time_cases (now_seconds w) payload) as Hct.
  destruct payload; rewrite Hct in Hthrow; try done.
  - injection Hthrow as <-. right. right. eauto.
  - destruct (expired _ _) as [t|] eqn:Hexp.
    { apply expired_Some in Hexp as [? ?]. injection Hthrow as <-.
      left. by eexists _, pt, fields, t. }
    destruct (not_active _ _) as [t|] eqn:Hnbf; [|done].
    apply not_active_Some in Hnbf as [? ?]. injection Hthrow as <-.
    right. left. by eexists _, pt, fields, t.
Qed.

Lemma decrypt_any_clock st w token :
  decrypt st w token ≠ Throw InvalidSignatureError →
  ∃ payload, ∀ w', decrypt st w' token = check_time (now_seconds w') payload.
Proof.
  intros (pt & payload & Hopen & Hparse & _)%decrypt_inv.
  exists payload. intros w'. by rewrite (decrypt_opens _ _ _ _ Hopen), Hparse.
Qed.

Lemma decrypt_clock_free st w w' token :
  decrypt st w token = Throw InvalidSignatureError →
  decrypt st w' token = Throw InvalidSignatureError.
Proof.
  intros Hw. destruct (generic_or_not (decrypt st w' token)) as [|Hne]; [done|].
  destruct (decrypt_any_clock _ _ _ Hne) as [payload Hdec].
  rewrite Hdec in Hw. pose proof (check_time_cases (now_seconds w) payload) as Hct.
  destruct payload; rewrite Hct in Hw; try done.
  destruct (expired _ _); [done|]. by destruct (not_active _ _).
Qed.

(** X14.  The clock only moves a token through not-yet-active, accepted,
    expired, in that order.  With the second clock value not before the
    first: a token expired at the first is expired at the second, with the
    same time; a token not yet active at the second was not yet active at
    the first; a token accepted at both is accepted, with the same payload,
    at every clock value between them; and the generic error does not depend
    on the clock at all. *)
Theorem decrypt_clock (st : t) (w1 w2 : World) (token : string)
    (Hle : now_seconds w1 ≤ now_seconds w2) :
  (∀ t, decrypt st w1 token = Throw (TokenExpiredError t) →
        decrypt st w2 token = Throw (TokenExpiredError t)) ∧
  (∀ t, decrypt st w2 token = Throw (TokenNotActiveError t) →
        decrypt st w1 token = Throw (TokenNotActiveError t)) ∧
  (∀ w v, now_seconds w1 ≤ now_seconds w ≤ now_seconds w2 →
        decrypt st w1 token = Normal v →
        (∃ v', decrypt st w2 token = Normal v') →
        decrypt st w token = Normal v) ∧
  (decrypt st w1 token = Throw InvalidSignatureError ↔
   decrypt st w2 token = Throw InvalidSignatureError).
Proof.
  split; [|split; [|split]]; [| | |split; apply decrypt_clock_free].
  - intros t H1. destruct (decrypt_any_clock st w1 token) as [payload Hdec];
      [congruence|].
    rewrite Hdec in *.
    pose proof (check_time_cases (now_seconds w1) payload) as Hct1.
    pose proof (check_time_cases (now_seconds w2) payload) as Hct2.
    destruct payload; rewrite Hct1 in H1; rewrite Hct2; try done.
    destruct (expired (now_seconds w1) _) as [t1|] eqn:Hexp1.
    + apply expired_Some in Hexp1 as [Hexp ?]. injection H1 as <-.
      rewrite (proj2 (expired_Some (now_seconds w2) _ t1)); [done|].
      split; [done | lia].
    + by destruct (not_active (now_seconds w1) _).
  - intros t H2. destruct (decrypt_any_clock st w2 token) as [payload Hdec];
      [congruence|].
    rewrite Hdec in *.
    pose proof (check_time_cases (now_seconds w1) payload) as Hct1.
    pose proof (check_time_cases (now_seconds w2) payload) as Hct2.
    destruct payload; rewrite Hct2 in H2; rewrite Hct1; try done.
    destruct (expired (now_seconds w2) _) as [t2|] eqn:Hexp2; [done|].
    destruct (not_active (now_seconds w2) _) as [t2|] eqn:Hnbf2; [|done].
    injection H2 as <-. apply not_active_Some in Hnbf2 as [Hnbf ?].
    rewrite (proj2 (expired_None (now_seconds w1) _)).
    + rewrite (proj2 (not_active_Some (now_seconds w1) _ t2)); [done|].
      split; [done | lia].
    + intros t Ht. pose proof (proj1 (expired_None _ _) Hexp2 t Ht). lia.
  - intros w v Hw H1 [v' H2].
    destruct (decrypt_any_clock st w1 token) as [payload Hdec]; [congruence|].
    rewrite Hdec in *.
    pose proof (check_time_cases (now_seconds w1) payload) as Hct1.
    pose proof (check_time_cases (now_seconds w2) payload) as Hct2.
    pose proof (check_time_cases (now_seconds w) payload) as Hct.
    destruct payload; rewrite Hct1 in H1; rewrite Hct2 in H2; rewrite Hct;
      try done.
    destruct (expired (now_seconds w1) _) eqn:Hexp1; [done|].
    destruct (not_active (now_seconds w1) _) eqn:Hnbf1; [done|].
    destruct (expired (now_seconds w2) _) eqn:Hexp2; [done|].
    destruct (not_active (now_seconds w2) _) eqn:Hnbf2; [done|].
    rewrite (proj2 (expired_None (now_seconds w) _)).
    + rewrite (proj2 (not_active_None (now_seconds w) _)); [done|].
      intros t Ht. pose proof (proj1 (not_active_None _ _) Hnbf1 t Ht). lia.
    + intros t Ht. pose proof (proj1 (expired_None _ _) Hexp2 t Ht). lia.
Qed.

(** X15.  [decrypt] checks [exp] and [nbf] and nothing else of the payload:
    two tokens that open to objects with the same [exp] and the same [nbf]
    are both returned or both refused with the same error, whatever their
    issuer, audience, issue time or other fields. *)
Theorem decrypt_checks_exp_nbf_only (st : t) (w : World) (token1 token2 : string)
    (plaintext1 plaintext2 : list byte) (P1 P2 : gmap string json)
    (Hopen1 : opens st token1 plaintext1)
    (Hparse1 : JSON_parse (TextDecoder_decode plaintext1) = Some (JObject P1))
    (Hopen2 : opens st token2 plaintext2)
    (Hparse2 : JSON_parse (TextDecoder_decode plaintext2) = Some (JObject P2))
    (Hexp : P1 !! "exp" = P2 !! "exp") (Hnbf : P1 !! "nbf" = P2 !! "nbf") :
  (decrypt st w token1 = Normal (JObject P1) ∧
   decrypt st w token2 = Normal (JObject P2)) ∨
  (∃ e, decrypt st w token1 = Throw e ∧ decrypt st w token2 = Throw e).
Proof.
  rewrite (decrypt_opens _ _ _ _ Hopen1), (decrypt_opens _ _ _ _ Hopen2).
  rewrite Hparse1, Hparse2, !check_time_object, Hexp, Hnbf.
  destruct (expired _ _); [eauto|]. destruct (not_active _ _); eauto.
Qed.

Lemma secret_of_bytes_of st1 st2 kid :
  consistent st1 → consistent st2 →
  secret_of st1 kid = secret_of st2 kid →
  match keys st1 !! kid, keys st2 !! kid with
  | Some key1, Some key2 => bytes_of st1 key1 = bytes_of st2 key2
  | None, None => True
  | _, _ => False
  end.
Proof.
  intros Hc1 Hc2. unfold secret_of, bytes_of, bytes_at.
  destruct (keys st1 !! kid) as [key1|] eqn:Hk1, (keys st2 !! kid) as [key2|] eqn:Hk2;
    simpl; try done.
  - destruct (refs_allocated _ Hc1 _ _ Hk1) as (b1 & -> & _).
    destruct (refs_allocated _ Hc2 _ _ Hk2) as (b2 & -> & _). by intros [= ->].
  - by destruct (refs_allocated _ Hc1 _ _ Hk1) as (b1 & -> & _).
  - by destruct (refs_allocated _ Hc2 _ _ Hk2) as (b2 & -> & _).
Qed.

Lemma decrypt_same_secret st1 st2 w token :
  consistent st1 → consistent st2 →
  (∀ s0 s1 kid s3 s4, split "." token = [s0; s1; kid; s3; s4] →
     secret_of st1 kid = secret_of st2 kid) →
  decrypt st1 w token = decrypt st2 w token.
Proof.
  intros Hc1 Hc2 Hsame. unfold decrypt.
  destruct (split "." token) as [|s0 [|s1 [|s2 [|s3 [|s4 [|s5 rest]]]]]] eqn:Hs;
    try done. simpl.
  destruct (negb (s0 =? TECTO_PREFIX)%string || negb (s1 =? TECTO_VERSION)%string);
    [done|].
  rewrite !getKey_run. simpl.
  pose proof (secret_of_bytes_of _ _ s2 Hc1 Hc2 (Hsame _ _ _ _ _ eq_refl)) as Hb.
  destruct (keys st1 !! s2), (keys st2 !! s2); try done. by rewrite Hb.
Qed.

Lemma encrypt_same_secret st1 st2 payload options w :
  consistent st1 → consistent st2 →
  currentKeyId st1 = currentKeyId st2 →
  (∀ kid, currentKeyId st1 = Some kid → secret_of st1 kid = secret_of st2 kid) →
  encrypt st1 payload options w = encrypt st2 payload options w.
Proof.
  intros Hc1 Hc2 Hcur Hsame. rewrite !encrypt_run, <-Hcur.
  destruct (currentKeyId st1) as [kid|]; [|done].
  pose proof (secret_of_bytes_of _ _ kid Hc1 Hc2 (Hsame _ eq_refl)) as Hb.
  destruct (keys st1 !! kid), (keys st2 !! kid); try done. by rewrite Hb.
Qed.

(** X16.  The engine sees a store through two things only: the current key
    id and the secrets stored under ids.  Two stores reached by calls that
    hold the same secret under a token's key id, or both none, answer
    [decrypt] alike on that token; if they also agree on the current id and
    its secret, [encrypt] returns the same token in both.  So a store
    rebuilt by replaying the keys decrypts what the first one sealed. *)
Theorem engine_sees_secrets_only (st1 st2 : t)
    (Hreach1 : reachable st1) (Hreach2 : reachable st2) :
  (∀ w token,
     (∀ s0 s1 kid s3 s4, split "." token = [s0; s1; kid; s3; s4] →
        secret_of st1 kid = secret_of st2 kid) →
     decrypt st1 w token = decrypt st2 w token) ∧
  (currentKeyId st1 = currentKeyId st2 →
   (∀ kid, currentKeyId st1 = Some kid → secret_of st1 kid = secret_of st2 kid) →
   ∀ payload options w,
     encrypt st1 payload options w = encrypt st2 payload options w).
Proof.
  pose proof (reachable_consistent _ Hreach1).
  pose proof (reachable_consistent _ Hreach2). split.
  - intros w token. by apply decrypt_same_secret.
  - intros Hcur Hsame payload options w. by apply encrypt_same_secret.
Qed.

(** X17.  Removing a key revokes its tokens and nothing else.  After a
    successful [removeKey] of [id] on a store reached by calls, every token
    whose key id is [id] is refused with the generic error, every other
    token is answered as before, and [encrypt] returns what it returned
    before. *)
Theorem removeKey_revokes (st : t) (id : string)
    (Hreach : reachable st) (Hok : fst (removeKey id st) = Normal tt) :
  let st' := snd (removeKey id st) in
  (∀ w token s0 s1 s3 s4,
     split "." token = [s0; s1; id; s3; s4] →
     decrypt st' w token = Throw InvalidSignatureError) ∧
  (∀ w token,
     (∀ s0 s1 s3 s4, split "." token ≠ [s0; s1; id; s3; s4]) →
     decrypt st' w token = decrypt st w token) ∧
  (∀ payload options w,
     encrypt st' payload options w = encrypt st payload options w).
Proof.
  intros st'.
  assert (Hreach' : reachable st') by apply (reachable_call (RemoveKey id) _ Hreach).
  pose proof (reachable_consistent _ Hreach) as Hc.
  pose proof (reachable_consistent _ Hreach') as Hc'.
  assert (Hst' : keys st' !! id = None ∧ currentKeyId st' = currentKeyId st ∧
                 currentKeyId st ≠ Some id ∧
                 ∀ id', id' ≠ id → secret_of st' id' = secret_of st id').
  { subst st'. rewrite removeKey_run in *.
    destruct (keys st !! id) as [r|] eqn:Hr; [|done].
    case_decide as Hcur; [done|]. simpl.
    split; [apply lookup_delete_eq|]. split; [done|]. split; [done|].
    intros id' Hne. rewrite secret_of_removed by done. by rewrite decide_False. }
  destruct Hst' as (Hgone & Hcur & Hnot & Hothers). split; [|split].
  - intros w token s0 s1 s3 s4 Hs. unfold decrypt. rewrite Hs. simpl.
    destruct (negb (s0 =? TECTO_PREFIX)%string || negb (s1 =? TECTO_VERSION)%string);
      [done|].
    by rewrite getKey_run, Hgone.
  - intros w token Hkid. apply decrypt_same_secret; [done..|].
    intros s0 s1 kid s3 s4 Hs. apply Hothers. intros ->. by apply (Hkid s0 s1 s3 s4).
  - intros payload options w. apply encrypt_same_secret; [done..|].
    intros kid Hkid. apply Hothers. intros ->. congruence.
Qed.

(** X18.  Adding a key under an id that is not the current one disturbs
    nothing that was there: after a successful [addKey] on a store reached
    by calls, every token whose key id is another id is answered as before,
    and, when the store had a current key under another id, [encrypt]
    returns what it returned before.  On a store without keys the added id
    becomes the one [encrypt] seals under. *)
Theorem addKey_keeps_tokens (st : t) (id : string) (secret : list byte)
    (Hreach : reachable st) (Hok : fst (addKey id secret st) = Normal tt) :
  let st' := snd (addKey id secret st) in
  (∀ w token,
     (∀ s0 s1 s3 s4, split "." token ≠ [s0; s1; id; s3; s4]) →
     decrypt st' w token = decrypt st w token) ∧
  (∀ cur, currentKeyId st = Some cur → cur ≠ id →
     ∀ payload options w,
       encrypt st' payload options w = encrypt st payload options w) ∧
  (currentKeyId st = None →
     ∀ payload options w token w',
       encrypt st' payload options w = (Normal token, w') →
       ∃ nonceB64 ciphertextB64, token = frame id nonceB64 ciphertextB64).
Proof.
  intros st'.
  assert (Hreach' : reachable st') by apply (reachable_call (AddKey id secret) _ Hreach).
  pose proof (reachable_consistent _ Hreach) as Hc.
  pose proof (reachable_consistent _ Hreach') as Hc'.
  assert (Hst' : st' = added id secret st).
  { subst st'. rewrite addKey_run in *.
    by destruct (Security.assertEntropy secret). }
  assert (Hothers : ∀ id', id' ≠ id → secret_of st' id' = secret_of st id').
  { intros id' Hne. rewrite Hst', secret_of_added by done. by rewrite decide_False. }
  split; [|split].
  - intros w token Hkid. apply decrypt_same_secret; [done..|].
    intros s0 s1 kid s3 s4 Hs. apply Hothers. intros ->. by apply (Hkid s0 s1 s3 s4).
  - intros cur Hcur Hne payload options w. apply encrypt_same_secret; [done..| |].
    + rewrite Hst'. simpl. by rewrite Hcur.
    + intros kid Hkid. apply Hothers. rewrite Hst' in Hkid. simpl in Hkid.
      rewrite Hcur in Hkid. congruence.
  - intros Hnone payload options w token w'. rewrite encrypt_run, Hst'. simpl.
    rewrite Hnone, lookup_insert_eq. cbv zeta.
    destruct (duration (options ≫= expiresIn)); [|done].
    destruct (duration (options ≫= notBefore)); [|done].
    destruct (xchacha20poly1305_encrypt _ _ _); [|done].
    intros [= <- _]. eauto.
Qed.

End EngineMore.

(** ** The further properties on concrete inputs *)

Section MoreConcrete.
Import MemoryKeyStore TectoCoder Examples.

Lemma stored_keys_gated_witness :
  reachable store_k1_k2 ∧ secret_of store_k1_k2 "k1" = Some K1 ∧
  Security.assertEntropy K1 = Normal tt ∧ length K1 = 32%nat ∧
  (8 ≤ distinct_values K1)%nat ∧ K1 ≠ zeros 32.
Proof.
  assert (H1 : reachable store_k1_k2)
    by (apply reachable_call, reachable_call, reachable_empty).
  assert (H2 : secret_of store_k1_k2 "k1" = Some K1) by (vm_compute; reflexivity).
  do 2 (split; [assumption|]).
  exact (stored_keys_gated store_k1_k2 "k1" K1 H1 H2).
Defined.

Lemma addKey_getKey_witness :
  reachable store_k1 ∧ fst (addKey "k2" K2 store_k1) = Normal tt ∧
  secret_of (snd (addKey "k2" K2 store_k1)) "k1" = Some K1 ∧
  currentKeyId (snd (addKey "k2" K2 store_k1)) = Some "k1".
Proof.
  assert (H1 : reachable store_k1) by (apply reachable_call, reachable_empty).
  assert (H2 : fst (addKey "k2" K2 store_k1) = Normal tt) by (vm_compute; reflexivity).
  do 2 (split; [assumption|]).
  destruct (addKey_getKey store_k1 "k2" K2 H1 H2) as (_ & Hothers & Hcur).
  split.
  - rewrite (proj2 (Hothers "k1" ltac:(discriminate))). vm_compute. reflexivity.
  - exact Hcur.
Defined.

Lemma current_key_forever_witness :
  reachable store_k1 ∧
  ∃ id, fst (getCurrentKeyId
               (after_all [RemoveKey "k1"; Rotate "k2" K2; RemoveKey "k2"] store_k1))
        = Normal id ∧
        is_Some (secret_of
                   (after_all [RemoveKey "k1"; Rotate "k2" K2; RemoveKey "k2"] store_k1)
                   id).
Proof.
  assert (H1 : reachable store_k1) by (apply reachable_call, reachable_empty).
  split; [assumption|].
  destruct (proj2 (current_key_forever store_k1 H1)
              [RemoveKey "k1"; Rotate "k2" K2; RemoveKey "k2"])
    as (id & Hid & Hsecret & _).
  - intros H. vm_compute in H. discriminate.
  - exists id. split; assumption.
Defined.

Lemma buffers_only_wiped_witness :
  bytes_at store_k1_k2 0 = Some K1 ∧
  (bytes_at (after (RemoveKey "k1") store_k1_k2) 0 = Some K1 ∨
   ∃ id, RemoveKey "k1" = RemoveKey id ∧ keys store_k1_k2 !! id = Some 0%nat ∧
         fst (run (RemoveKey "k1") store_k1_k2) = Normal tt ∧
         bytes_at (after (RemoveKey "k1") store_k1_k2) 0 = Some (zeros (length K1))).
Proof.
  assert (H1 : bytes_at store_k1_k2 0 = Some K1) by (vm_compute; reflexivity).
  split; [assumption|].
  exact (buffers_only_wiped (RemoveKey "k1") store_k1_k2 0 K1 H1).
Defined.

Lemma overwritten_secret_never_wiped_witness :
  reachable store_k1 ∧
  (∃ id secret, (AddKey "k1" K2 = AddKey id secret ∨ AddKey "k1" K2 = Rotate id secret) ∧
                keys store_k1 !! id = Some 0%nat) ∧
  bytes_at store_k1 0 = Some K1 ∧
  fst (run (AddKey "k1" K2) store_k1) = Normal tt ∧
  bytes_at (after_all [Rotate "k3" K1; RemoveKey "k1"] (after (AddKey "k1" K2) store_k1)) 0
    = Some K1.
Proof.
  assert (H1 : reachable store_k1) by (apply reachable_call, reachable_empty).
  assert (H2 : ∃ id secret,
            (AddKey "k1" K2 = AddKey id secret ∨ AddKey "k1" K2 = Rotate id secret) ∧
            keys store_k1 !! id = Some 0%nat).
  { exists "k1", K2. split; [left; reflexivity | vm_compute; reflexivity]. }
  assert (H3 : bytes_at store_k1 0 = Some K1) by (vm_compute; reflexivity).
  assert (H4 : fst (run (AddKey "k1" K2) store_k1) = Normal tt)
    by (vm_compute; reflexivity).
  do 4 (split; [assumption|]).
  exact (proj2 (overwritten_secret_never_wiped store_k1 (AddKey "k1" K2) 0 K1
                  [Rotate "k3" K1; RemoveKey "k1"] H1 H2 H3 H4)).
Defined.

Lemma removeKey_frame_witness :
  reachable store_k1_k2 ∧ fst (removeKey "k1" store_k1_k2) = Normal tt ∧
  currentKeyId (snd (removeKey "k1" store_k1_k2)) = currentKeyId store_k1_k2 ∧
  fst (getKey "k1" (snd (removeKey "k1" store_k1_k2)))
    = Throw (KeyError (KeyNotFoundMsg "k1")) ∧
  secret_of (snd (removeKey "k1" store_k1_k2)) "k2" = secret_of store_k1_k2 "k2".
Proof.
  assert (H1 : reachable store_k1_k2)
    by (apply reachable_call, reachable_call, reachable_empty).
  assert (H2 : fst (removeKey "k1" store_k1_k2) = Normal tt)
    by (vm_compute; reflexivity).
  do 2 (split; [assumption|]).
  destruct (removeKey_frame store_k1_k2 "k1" H1 H2) as (Hcur & _ & Hgone & Hothers).
  split; [exact Hcur|]. split; [exact Hgone|].
  exact (proj2 (Hothers "k2" ltac:(discriminate))).
Defined.

Lemma encrypt_outcome_witness :
  reachable store_k1 ∧
  ∃ nonceB64 ciphertextB64,
    encrypt store_k1 admin one_hour (world counting) =
    (Normal (frame "k1" nonceB64 ciphertextB64),
     advance (jti_bytes one_hour + 24) (world counting)).
Proof.
  assert (H1 : reachable store_k1) by (apply reachable_call, reachable_empty).
  split; [assumption|].
  pose proof (encrypt_outcome externals_ok store_k1 admin one_hour (world counting) H1)
    as H.
  assert (Hcur : currentKeyId store_k1 = Some "k1") by (vm_compute; reflexivity).
  assert (Hexp : duration (one_hour ≫= expiresIn) = Normal (Some 3600))
    by (vm_compute; reflexivity).
  assert (Hnbf : duration (one_hour ≫= notBefore) = Normal None)
    by (vm_compute; reflexivity).
  rewrite Hcur, Hexp, Hnbf in H. exact H.
Defined.

Lemma decrypt_throws_only_witness :
  decrypt store_k1 {| Date_now := 1700003600999; random := counting; drawn := 0 |}
    token_k1 = Throw (TokenExpiredError (Date_at 1700003600000)) ∧
  (TokenExpiredError (Date_at 1700003600000) = InvalidSignatureError ∨
   (∃ expiredAt plaintext P t,
      TokenExpiredError (Date_at 1700003600000) = TokenExpiredError expiredAt ∧
      opens store_k1 token_k1 plaintext ∧
      JSON_parse (TextDecoder_decode plaintext) = Some (JObject P) ∧
      P !! "exp" = Some (JNumber t) ∧
      t ≤ now_seconds {| Date_now := 1700003600999; random := counting; drawn := 0 |}) ∨
   (∃ activeAt plaintext P t,
      TokenExpiredError (Date_at 1700003600000) = TokenNotActiveError activeAt ∧
      opens store_k1 token_k1 plaintext ∧
      JSON_parse (TextDecoder_decode plaintext) = Some (JObject P) ∧
      P !! "nbf" = Some (JNumber t) ∧
      now_seconds {| Date_now := 1700003600999; random := counting; drawn := 0 |} < t) ∨
   (TokenExpiredError (Date_at 1700003600000) = TypeError ∧
    ∃ plaintext, opens store_k1 token_k1 plaintext ∧
                 JSON_parse (TextDecoder_decode plaintext) = Some JNull)).
Proof.
  assert (H1 : decrypt store_k1
                 {| Date_now := 1700003600999; random := counting; drawn := 0 |}
                 token_k1 = Throw (TokenExpiredError (Date_at 1700003600000)))
    by (vm_compute; reflexivity).
  split; [assumption|].
  exact (decrypt_throws_only store_k1 _ token_k1 _ H1).
Defined.

Lemma decrypt_clock_witness :
  now_seconds {| Date_now := 1700003600999; random := counting; drawn := 0 |}
    ≤ now_seconds {| Date_now := 1800000000000; random := counting; drawn := 0 |} ∧
  decrypt store_k1 {| Date_now := 1700003600999; random := counting; drawn := 0 |}
    token_k1 = Throw (TokenExpiredError (Date_at 1700003600000)) ∧
  decrypt store_k1 {| Date_now := 1800000000000; random := counting; drawn := 0 |}
    token_k1 = Throw (TokenExpiredError (Date_at 1700003600000)).
Proof.
  assert (H1 : now_seconds {| Date_now := 1700003600999; random := counting; drawn := 0 |}
    ≤ now_seconds {| Date_now := 1800000000000; random := counting; drawn := 0 |}).
  { intros H. vm_compute in H. discriminate. }
  assert (H2 : decrypt store_k1
                 {| Date_now := 1700003600999; random := counting; drawn := 0 |}
                 token_k1 = Throw (TokenExpiredError (Date_at 1700003600000)))
    by (vm_compute; reflexivity).
  do 2 (split; [assumption|]).
  exact (proj1 (decrypt_clock store_k1 _ _ token_k1 H1) _ H2).
Defined.

Lemma decrypt_checks_exp_nbf_only_witness :
  ∃ plaintext P,
    opens store_k1 token_k1 plaintext_k1 ∧
    JSON_parse (TextDecoder_decode plaintext_k1) = Some (JObject claims_k1) ∧
    opens store_k1 token_k1_again plaintext ∧
    JSON_parse (TextDecoder_decode plaintext) = Some (JObject P) ∧
    claims_k1 !! "exp" = P !! "exp" ∧ claims_k1 !! "nbf" = P !! "nbf" ∧
    claims_k1 !! "jti" ≠ P !! "jti" ∧
    ((decrypt store_k1 (world counting) token_k1 = Normal (JObject claims_k1) ∧
      decrypt store_k1 (world counting) token_k1_again = Normal (JObject P)) ∨
     (∃ e, decrypt store_k1 (world counting) token_k1 = Throw e ∧
           decrypt store_k1 (world counting) token_k1_again = Throw e)).
Proof.
  assert (H1 : opens store_k1 token_k1 plaintext_k1).
  { do 6 eexists. split; [vm_compute; reflexivity|].
    split; [vm_compute; reflexivity|].
    split; [vm_compute; reflexivity|].
    split; [vm_compute; reflexivity|].
    split; vm_compute; reflexivity. }
  assert (H2 : JSON_parse (TextDecoder_decode plaintext_k1) = Some (JObject claims_k1))
    by (vm_compute; reflexivity).
  set (P := claims_of admin one_hour 1700000000
              (jti_of one_hour (advance 40 (world counting))) (Some 3600) None).
  set (plaintext := TextEncoder_encode (JSON_stringify (JObject P))).
  assert (H3 : opens store_k1 token_k1_again plaintext).
  { do 6 eexists. split; [vm_compute; reflexivity|].
    split; [vm_compute; reflexivity|].
    split; [vm_compute; reflexivity|].
    split; [vm_compute; reflexivity|].
    split; vm_compute; reflexivity. }
  assert (H4 : JSON_parse (TextDecoder_decode plaintext) = Some (JObject P))
    by (vm_compute; reflexivity).
  assert (H5 : claims_k1 !! "exp" = P !! "exp") by (vm_compute; reflexivity).
  assert (H6 : claims_k1 !! "nbf" = P !! "nbf") by (vm_compute; reflexivity).
  exists plaintext, P. do 6 (split; [assumption|]). split.
  - intros H. vm_compute in H. discriminate.
  - exact (decrypt_checks_exp_nbf_only store_k1 (world counting) token_k1
             token_k1_again plaintext_k1 plaintext claims_k1 P H1 H2 H3 H4 H5 H6).
Defined.

Lemma engine_sees_secrets_only_witness :
  reachable store_k1 ∧ reachable (after (AddKey "k1" K1) (after (AddKey "k0" K2) empty)) ∧
  decrypt store_k1 (world counting) token_k1
  = decrypt (after (AddKey "k1" K1) (after (AddKey "k0" K2) empty)) (world counting)
      token_k1.
Proof.
  assert (H1 : reachable store_k1) by (apply reachable_call, reachable_empty).
  assert (H2 : reachable (after (AddKey "k1" K1) (after (AddKey "k0" K2) empty)))
    by (apply reachable_call, reachable_call, reachable_empty).
  do 2 (split; [assumption|]).
  apply (proj1 (engine_sees_secrets_only _ _ H1 H2)).
  intros s0 s1 kid s3 s4 Hs. vm_compute in Hs. injection Hs as <- <- <- <- <-.
  vm_compute. reflexivity.
Defined.

Lemma removeKey_revokes_witness :
  reachable store_k1_k2 ∧ fst (removeKey "k1" store_k1_k2) = Normal tt ∧
  decrypt store_k1_k2 (world counting) token_k1 = Normal (JObject claims_k1) ∧
  decrypt (snd (removeKey "k1" store_k1_k2)) (world counting) token_k1
    = Throw InvalidSignatureError ∧
  encrypt (snd (removeKey "k1" store_k1_k2)) admin one_hour (world counting)
    = encrypt store_k1_k2 admin one_hour (world counting).
Proof.
  assert (H1 : reachable store_k1_k2)
    by (apply reachable_call, reachable_call, reachable_empty).
  assert (H2 : fst (removeKey "k1" store_k1_k2) = Normal tt)
    by (vm_compute; reflexivity).
  do 2 (split; [assumption|]). split; [vm_compute; reflexivity|].
  destruct (removeKey_revokes store_k1_k2 "k1" H1 H2) as (Hrevoked & _ & Henc).
  split; [|apply Henc].
  assert (Hs : ∃ s3 s4, split "." token_k1 = ["tecto"; "v1"; "k1"; s3; s4])
    by (eexists _, _; vm_compute; reflexivity).
  destruct Hs as (s3 & s4 & Hs). exact (Hrevoked _ _ _ _ _ _ Hs).
Defined.

Lemma addKey_keeps_tokens_witness :
  reachable store_k1 ∧ fst (addKey "k2" K2 store_k1) = Normal tt ∧
  decrypt (snd (addKey "k2" K2 store_k1)) (world counting) token_k1
    = decrypt store_k1 (world counting) token_k1 ∧
  encrypt (snd (addKey "k2" K2 store_k1)) admin one_hour (world counting)
    = encrypt store_k1 admin one_hour (world counting).
Proof.
  assert (H1 : reachable store_k1) by (apply reachable_call, reachable_empty).
  assert (H2 : fst (addKey "k2" K2 store_k1) = Normal tt) by (vm_compute; reflexivity).
  do 2 (split; [assumption|]).
  destruct (addKey_keeps_tokens store_k1 "k2" K2 H1 H2) as (Hdec & Henc & _).
  split.
  - apply Hdec. intros s0 s1 s3 s4 H. vm_compute in H. discriminate.
  - apply (Henc "k1"); [vm_compute; reflexivity | discriminate].
Defined.

End MoreConcrete.
